(** * BaECLIR retrieval core: inverted index, TF-IDF / BM25 scoring, search

    A shallow embedding of [src/ModuleA/crawlers/news.py] (classes
    [InvertedIndex], [TFIDFRetrieval], [BM25Retrieval], [CLIRSystem]).

    Modelling conventions.
    - Python [str] values are Rocq [string]s; every [ascii] stands for the
      code point of the same number (0..255, the Latin-1 range).  The
      character tables below ([isspace], [isalnum], [lower_char]) are
      Python's tables on that range.  Code points above 255 are outside the
      type.
    - Python [int] counters (document ids, term frequencies, lengths) are
      [nat]; [top_k] is a [Z] because a slice bound may be negative.
    - Python [float] values are real numbers ([R]); rounding is not
      modelled.  [ZeroDivisionError] of [/] and the domain error of
      [math.log] are modelled by the [result] monad.
    - [dict] and [defaultdict] are [gmap]s, [set] is [gset].
    - Wall-clock readings and the external translator are inputs. *)

From Stdlib Require Import Reals Lra Lia ZArith Ascii String.
From stdpp Require Import gmap strings list fin_maps sorting.

Local Open Scope nat_scope.

(** ** Exceptions *)

Inductive exn : Type :=
| ZeroDivisionError
| ValueError
| KeyError
| TranslationError.

Inductive result (A : Type) : Type :=
| Ok (a : A)
| Raise (e : exn).
Arguments Ok {A} a.
Arguments Raise {A} e.

Global Instance result_ret : MRet result := @Ok.

Global Instance result_bind : MBind result := λ A B k m,
  match m with
  | Ok a => k a
  | Raise e => Raise e
  end.

(** A list comprehension whose element expression may raise. *)
Fixpoint map_result {A B : Type} (f : A → result B) (l : list A)
  : result (list B) :=
  match l with
  | [] => Ok []
  | x :: l' => y ← f x; ys ← map_result f l'; Ok (y :: ys)
  end.

(** ** Characters *)

Module Char.

Definition code (c : ascii) : N := N_of_ascii c.

Definition between (lo hi : N) (c : ascii) : bool :=
  ((lo <=? code c) && (code c <=? hi))%N.

(** [str.isspace], which is also the class [\s] of [re] on [str] patterns
    and the separator set of [str.split()]: TAB..CR, FS..US, SPACE, NEL,
    NBSP. *)
Definition isspace (c : ascii) : bool :=
  between 9 13 c || between 28 32 c || (code c =? 133)%N || (code c =? 160)%N.

(** [str.isalpha]: A-Z, a-z, and the Latin-1 letters. *)
Definition isalpha (c : ascii) : bool :=
  between 65 90 c || between 97 122 c
  || (code c =? 170)%N || (code c =? 181)%N || (code c =? 186)%N
  || between 192 214 c || between 216 246 c || between 248 255 c.

(** [str.isdecimal], [str.isdigit] or [str.isnumeric]: 0-9, the
    superscripts 2 3 1 and the three vulgar fractions. *)
Definition isdigit (c : ascii) : bool :=
  between 48 57 c
  || (code c =? 178)%N || (code c =? 179)%N || (code c =? 185)%N
  || between 188 190 c.

Definition isalnum (c : ascii) : bool := isalpha c || isdigit c.

(** The class [\w] of [re] on [str] patterns: alphanumerics and the
    underscore. *)
Definition isword (c : ascii) : bool := isalnum c || (code c =? 95)%N.

(** [str.lower] on one character. *)
Definition lower_char (c : ascii) : ascii :=
  if between 65 90 c || between 192 214 c || between 216 222 c
  then ascii_of_N (code c + 32)
  else c.

End Char.

(** ** Tokenizer *)

Fixpoint str_map (f : ascii → ascii) (s : string) : string :=
  match s with
  | EmptyString => EmptyString
  | String c s' => String (f c) (str_map f s')
  end.

(** [text.lower()] *)
Definition lower (text : string) : string := str_map Char.lower_char text.

(** The character class [[^\w\s]]. *)
Definition nonword_nonspace (c : ascii) : bool :=
  negb (Char.isword c || Char.isspace c).

(** [re.sub(cls, ' ', text)] for a one-character class [cls]: every match is
    one character, and every matching character is replaced. *)
Definition re_sub_class (cls : ascii → bool) (text : string) : string :=
  str_map (fun c => if cls c then " "%char else c) text.

(** [text.split()]: the maximal runs of non-whitespace characters, in order.
    [cur] is the run being read, last character first. *)
Definition flush (cur : list ascii) : list string :=
  match cur with
  | [] => []
  | _ => [string_of_list_ascii (rev cur)]
  end.

Fixpoint split_from (cur : list ascii) (text : string) : list string :=
  match text with
  | EmptyString => flush cur
  | String c rest =>
      if Char.isspace c then flush cur ++ split_from [] rest
      else split_from (c :: cur) rest
  end.

Definition split (text : string) : list string := split_from [] text.

(** [InvertedIndex.tokenize] *)
Definition tokenize (text : string) : list string :=
  let text := lower text in
  let text := re_sub_class nonword_nonspace text in
  let tokens := split text in
  List.filter (fun t => 2 <? String.length t) tokens.

(** The tokenizer as the specification words it: characters that are not a
    letter, a digit or whitespace become a space. *)
Definition not_letter_digit_space (c : ascii) : bool :=
  negb (Char.isalpha c || Char.isdigit c || Char.isspace c).

Definition tokenize_spec (text : string) : list string :=
  List.filter (fun t => 2 <? String.length t)
    (split (re_sub_class not_letter_digit_space (lower text))).

(** The same with the underscore among the characters that are kept. *)
Definition not_letter_digit_underscore_space (c : ascii) : bool :=
  negb (Char.isalpha c || Char.isdigit c || Ascii.eqb c "_" || Char.isspace c).

Definition tokenize_amended (text : string) : list string :=
  List.filter (fun t => 2 <? String.length t)
    (split (re_sub_class not_letter_digit_underscore_space (lower text))).

(** The characters of a token: lower-case letters, digits, underscores. *)
Definition token_char (c : ascii) : Prop :=
  (Char.isalpha c || Char.isdigit c || Ascii.eqb c "_") = true
  ∧ Char.lower_char c = c.

(** What one character of the text becomes before splitting. *)
Definition prepared (c : ascii) : ascii :=
  let c := Char.lower_char c in
  if nonword_nonspace c then " "%char else c.

(** ** Documents and the inverted index *)

(** A scraped document: the keys of the [dict] built by
    [DailyStarScraper.scrape_article] that the retrieval core reads or
    exports. *)
Record Document : Type := mkDocument {
  title : string;
  body : string;
  url : string;
  date : option string;
  language : string;
  tokens : nat;
  named_entities : list string
}.

(** The value stored in [doc_metadata]. *)
Record Metadata : Type := mkMetadata {
  meta_title : string;
  meta_url : string;
  meta_date : option string;
  meta_language : string
}.

(** A posting [(doc_id, tf)]. *)
Abbreviation Posting := (nat * nat)%type.

Record InvertedIndex : Type := mkInvertedIndex {
  index : gmap string (list Posting);
  doc_lengths : gmap nat nat;
  doc_metadata : gmap nat Metadata;
  vocabulary : gset string;
  total_docs : nat;
  avg_doc_length : R
}.

(** [InvertedIndex.__init__] *)
Definition new_index : InvertedIndex :=
  mkInvertedIndex ∅ ∅ ∅ ∅ 0 0%R.

(** [collections.Counter(tokens)]: a count per distinct token, the keys in
    order of first occurrence (the order [items()] yields them in). *)
Fixpoint counter_incr (t : string) (c : list (string * nat)) : list (string * nat) :=
  match c with
  | [] => [(t, 1)]
  | (u, n) :: c' =>
      if String.eqb u t then (u, S n) :: c' else (u, n) :: counter_incr t c'
  end.

Definition Counter (toks : list string) : list (string * nat) :=
  fold_left (fun c t => counter_incr t c) toks [].

(** [enumerate(documents)] *)
Fixpoint enumerate_from {A : Type} (n : nat) (l : list A) : list (nat * A) :=
  match l with
  | [] => []
  | x :: l' => (n, x) :: enumerate_from (S n) l'
  end.

Definition enumerate {A : Type} (l : list A) : list (nat * A) := enumerate_from 0 l.

(** [InvertedIndex.get_postings]: [self.index.get(term, [])] *)
Definition get_postings (idx : InvertedIndex) (term : string) : list Posting :=
  default [] (index idx !! term).

(** [InvertedIndex.get_doc_freq]: [len(self.index.get(term, []))] *)
Definition get_doc_freq (idx : InvertedIndex) (term : string) : nat :=
  length (default [] (index idx !! term)).

(** One round of the inner loop of [build_index]:
    [self.vocabulary.add(term); self.index[term].append((doc_id, tf))]. *)
Definition add_posting (doc_id : nat) (idx : InvertedIndex) (item : string * nat)
  : InvertedIndex :=
  let '(term, tf) := item in
  mkInvertedIndex
    (<[term := default [] (index idx !! term) ++ [(doc_id, tf)]]> (index idx))
    (doc_lengths idx)
    (doc_metadata idx)
    ({[term]} ∪ vocabulary idx)
    (total_docs idx)
    (avg_doc_length idx).

(** The text a document is indexed under: [doc['title'] + ' ' + doc['body']]. *)
Definition doc_text (doc : Document) : string := title doc +:+ " " +:+ body doc.

(** The [doc_metadata] entry of a document. *)
Definition metadata_of_doc (doc : Document) : Metadata :=
  mkMetadata (title doc) (url doc) (date doc) (language doc).

(** One round of the outer loop of [build_index]; the accumulator carries the
    index and the local [total_length]. *)
Definition index_document (acc : InvertedIndex * nat) (entry : nat * Document)
  : InvertedIndex * nat :=
  let '(idx, total_length) := acc in
  let '(doc_id, doc) := entry in
  let meta := metadata_of_doc doc in
  let toks := tokenize (doc_text doc) in
  let term_freq := Counter toks in
  let idx :=
    mkInvertedIndex (index idx)
      (<[doc_id := length toks]> (doc_lengths idx))
      (<[doc_id := meta]> (doc_metadata idx))
      (vocabulary idx) (total_docs idx) (avg_doc_length idx) in
  (fold_left (add_posting doc_id) term_freq idx, total_length + length toks).

(** The loop of [build_index], before the average is set. *)
Definition build_loop (idx : InvertedIndex) (documents : list Document)
  : InvertedIndex * nat :=
  let idx :=
    mkInvertedIndex (index idx) (doc_lengths idx) (doc_metadata idx)
      (vocabulary idx) (length documents) (avg_doc_length idx) in
  fold_left index_document (enumerate documents) (idx, 0).

(** [InvertedIndex.build_index], run on the index object [idx]. *)
Definition build_index (idx : InvertedIndex) (documents : list Document)
  : InvertedIndex :=
  let '(idx, total_length) := build_loop idx documents in
  mkInvertedIndex (index idx) (doc_lengths idx) (doc_metadata idx)
    (vocabulary idx) (total_docs idx)
    (if 0 <? total_docs idx
     then (INR total_length / INR (total_docs idx))%R
     else 0%R).

(** ** Retrieval models *)

(** [x / y] on numbers. *)
Definition true_div (x y : R) : result R :=
  if Req_dec_T y 0 then Raise ZeroDivisionError else Ok (x / y)%R.

(** [math.log(x)] *)
Definition math_log (x : R) : result R :=
  if Rlt_dec 0 x then Ok (ln x) else Raise ValueError.

(** The scan of a posting list for the entry of [doc_id]:
    [tf = 0; for pid, ptf in postings: if pid == doc_id: tf = ptf; break]. *)
Fixpoint find_tf (postings : list Posting) (doc_id : nat) : nat :=
  match postings with
  | [] => 0
  | (pid, ptf) :: rest => if pid =? doc_id then ptf else find_tf rest doc_id
  end.

(** A [for] loop over a list whose body may raise. *)
Fixpoint foldM {A B : Type} (f : B → A → result B) (l : list A) (b : B) : result B :=
  match l with
  | [] => Ok b
  | x :: l' => b' ← f b x; foldM f l' b'
  end.

(** The value added to the TF-IDF score for a matching term. *)
Definition tfidf_contribution (idf : R) (tf : nat) : R :=
  (ln (1 + INR tf) * idf)%R.

(** The value added to the BM25 score for a matching term. *)
Definition bm25_contribution (k1 b idf doc_len avgdl : R) (tf : nat) : R :=
  (idf * (INR tf * (k1 + 1) / (INR tf + k1 * (1 - b + b * (doc_len / avgdl)))))%R.

(** The body of the loop of [TFIDFRetrieval.score_document]. *)
Definition tfidf_step (idx : InvertedIndex) (doc_id : nat) (score : R)
  (term : string) : result R :=
  let N := total_docs idx in
  let postings := get_postings idx term in
  let df := length postings in
  if df =? 0 then Ok score
  else
    q ← true_div (INR (N + 1)) (INR (df + 1));
    l ← math_log q;
    let idf := (l + 1)%R in
    let tf := find_tf postings doc_id in
    if 0 <? tf then
      tf_normalized ← math_log (INR (1 + tf));
      Ok (score + tf_normalized * idf)%R
    else Ok score.

(** The body of the loop of [BM25Retrieval.score_document]. *)
Definition bm25_step (k1 b : R) (idx : InvertedIndex) (doc_id : nat) (score : R)
  (term : string) : result R :=
  let N := total_docs idx in
  let avgdl := avg_doc_length idx in
  let doc_len := from_option INR avgdl (doc_lengths idx !! doc_id) in
  let postings := get_postings idx term in
  let df := length postings in
  if df =? 0 then Ok score
  else
    q ← true_div (IZR (Z.of_nat N - Z.of_nat df) + 0.5) (INR df + 0.5);
    idf ← math_log (q + 1);
    let tf := find_tf postings doc_id in
    if 0 <? tf then
      let numerator := (INR tf * (k1 + 1))%R in
      r ← true_div doc_len avgdl;
      let denominator := (INR tf + k1 * (1 - b + b * r))%R in
      f ← true_div numerator denominator;
      Ok (score + idf * f)%R
    else Ok score.

(** The subclasses of [RetrievalModel]; [BM25Retrieval] carries [k1] and [b].
    The [index] attribute of a model is the index object of the system that
    registers it, so [score_document] takes that index as an argument. *)
Inductive RetrievalModel : Type :=
| TFIDFRetrieval
| BM25Retrieval (k1 b : R).

Definition score_document (model : RetrievalModel) (idx : InvertedIndex)
  (query_terms : list string) (doc_id : nat) : result R :=
  match model with
  | TFIDFRetrieval => foldM (tfidf_step idx doc_id) query_terms 0%R
  | BM25Retrieval k1 b => foldM (bm25_step k1 b idx doc_id) query_terms 0%R
  end.

(** [BM25Retrieval(index)] with the default [k1=1.5, b=0.75]. *)
Definition BM25_default : RetrievalModel := BM25Retrieval 1.5 0.75.

(** ** The search system *)

(** One entry of the ['results'] list of a search record. *)
Record ResultEntry : Type := mkResultEntry {
  res_doc_id : nat;
  res_score : R;
  res_title : string;
  res_url : string
}.

(** An entry of [search_history]. *)
Record SearchRecord : Type := mkSearchRecord {
  query : string;
  translated_query : option string;
  query_language : string;
  method : string;
  num_results : nat;
  latency_seconds : R;
  timestamp : string;
  results : list ResultEntry
}.

(** The external translator: [translate(text, src, dest).text], which may
    raise. *)
Definition Translator : Type := string → string → string → result string.

(** The state of a [CLIRSystem] that indexing and search read or write. *)
Record CLIRSystem : Type := mkCLIRSystem {
  sys_index : InvertedIndex;
  documents : list Document;
  retrieval_models : gmap string RetrievalModel;
  translator : option Translator;
  search_history : list SearchRecord
}.

(** [CLIRSystem.__init__]; [tr] is [Translator()] when the import succeeded
    and [None] otherwise. *)
Definition new_system (tr : option Translator) : CLIRSystem :=
  mkCLIRSystem new_index [] ∅ tr [].

(** [CLIRSystem._generate_sample_data] *)
Definition generate_sample_data : list Document :=
  [ mkDocument
      "Bangladesh Economy Shows Strong Growth"
      "The Bangladesh economy continues to grow at a robust pace, driven by strong export performance and remittance inflows. The GDP growth rate reached 7.2% this year, outpacing many regional competitors. Key sectors like textiles, pharmaceuticals, and IT services have contributed significantly to this expansion."
      "https://www.thedailystar.net/business/economy/news/bangladesh-economy-growth-2024"
      (Some "2024-12-15") "en" 185 ["Bangladesh"; "GDP"; "IT"];
    mkDocument
      "Dhaka Traffic Management System Upgraded"
      "Dhaka city authorities have implemented a new smart traffic management system to reduce congestion in the capital. The system uses AI-powered cameras and sensors to monitor traffic flow in real-time. Initial results show a 15% reduction in average commute times during peak hours."
      "https://www.thedailystar.net/city/news/dhaka-traffic-system-2024"
      (Some "2024-12-14") "en" 172 ["Dhaka"; "AI"];
    mkDocument
      "Educational Reform Initiatives Launched"
      "The government has launched comprehensive educational reform initiatives focusing on digital learning and skills development for students across Bangladesh. The program includes teacher training, infrastructure upgrades, and curriculum modernization to prepare students for the digital economy."
      "https://www.thedailystar.net/education/news/education-reform-2024"
      (Some "2024-12-13") "en" 158 ["Bangladesh"; "digital learning"];
    mkDocument
      "Renewable Energy Projects Gain Momentum"
      "Bangladesh is accelerating its transition to renewable energy with several new solar and wind projects announced this quarter. The government aims to generate 40% of electricity from renewable sources by 2030. International partnerships are providing both funding and technical expertise."
      "https://www.thedailystar.net/environment/news/renewable-energy-bangladesh-2024"
      (Some "2024-12-12") "en" 165 ["Bangladesh"; "solar"; "wind"];
    mkDocument
      "Healthcare Infrastructure Expansion Announced"
      "Major healthcare infrastructure expansion plans were unveiled today, including 50 new hospitals and 200 community health centers across rural areas. The initiative aims to improve healthcare access for underserved populations and reduce the urban-rural healthcare gap."
      "https://www.thedailystar.net/health/news/healthcare-expansion-2024"
      (Some "2024-12-11") "en" 148 ["rural areas"] ].

(** The models [scrape_and_index] registers. *)
Definition registered_models : gmap string RetrievalModel :=
  <["bm25" := BM25_default]> (<["tfidf" := TFIDFRetrieval]> ∅).

(** The part of [scrape_and_index] that follows the choice of the batch:
    build the index over [self.documents] and register the models.  (The
    embedding loop adds a key to each document that nothing here reads.) *)
Definition index_batch (sys : CLIRSystem) (docs : list Document) : CLIRSystem :=
  mkCLIRSystem (build_index (sys_index sys) docs) docs registered_models
    (translator sys) (search_history sys).

(** [CLIRSystem.scrape_and_index]; [scraped] is what the scraper returned. *)
Definition scrape_and_index (sys : CLIRSystem) (scraped : list Document) : CLIRSystem :=
  let docs :=
    match scraped with
    | [] => generate_sample_data
    | _ => scraped
    end in
  index_batch sys docs.

(** [CLIRSystem.translate_query] *)
Definition translate_query (sys : CLIRSystem) (query source_lang target_lang : string)
  : string :=
  match translator sys with
  | None => query
  | Some tr =>
      match tr query source_lang target_lang with
      | Ok text => text
      | Raise _ => query
      end
  end.

(** [list.sort(key=lambda x: x[1], reverse=True)]: a stable sort, so entries
    of equal score keep their order.  [insert_desc] puts an entry in front of
    the first entry that does not have a greater score. *)
Fixpoint insert_desc (x : nat * R) (l : list (nat * R)) : list (nat * R) :=
  match l with
  | [] => [x]
  | y :: l' =>
      if Rlt_dec (snd x) (snd y) then y :: insert_desc x l' else x :: y :: l'
  end.

Fixpoint sort_desc (l : list (nat * R)) : list (nat * R) :=
  match l with
  | [] => []
  | x :: l' => insert_desc x (sort_desc l')
  end.

(** The slice [l[:k]]. *)
Definition slice_to {A : Type} (l : list A) (k : Z) : list A :=
  if (0 <=? k)%Z then take (Z.to_nat k) l
  else take (length l - Z.to_nat (- k)) l.

(** The body of the scoring loop of [search]. *)
Definition score_step (model : RetrievalModel) (idx : InvertedIndex)
  (query_terms : list string) (scores : list (nat * R)) (doc_id : nat)
  : result (list (nat * R)) :=
  score ← score_document model idx query_terms doc_id;
  if Rlt_dec 0 score then Ok (scores ++ [(doc_id, score)]) else Ok scores.

(** [self.index.doc_metadata[doc_id]] *)
Definition metadata_of (idx : InvertedIndex) (doc_id : nat) : result Metadata :=
  match doc_metadata idx !! doc_id with
  | Some m => Ok m
  | None => Raise KeyError
  end.

(** [self.retrieval_models.get(method, self.retrieval_models['bm25'])]; the
    default is evaluated before the call. *)
Definition select_model (models : gmap string RetrievalModel) (method : string)
  : result RetrievalModel :=
  match models !! "bm25" with
  | None => Raise KeyError
  | Some bm25 => Ok (default bm25 (models !! method))
  end.

(** The readings of the clock taken by one call of [search]. *)
Record Clock : Type := mkClock {
  start_time : R;
  end_time : R;
  now_isoformat : string
}.

(** Steps of [search] from the working query to the truncated ranking. *)
Definition rank (sys : CLIRSystem) (working_query method : string) (top_k : Z)
  : result (list (nat * R)) :=
  let query_terms := tokenize working_query in
  model ← select_model (retrieval_models sys) method;
  scores ← foldM (score_step model (sys_index sys) query_terms)
             (seq 0 (length (documents sys))) [];
  Ok (slice_to (sort_desc scores) top_k).

(** [CLIRSystem.search]: the returned list and the system after the call. *)
Definition search (clock : Clock) (sys : CLIRSystem) (query method : string)
  (top_k : Z) (query_lang : string)
  : result (list (nat * R * Metadata) * CLIRSystem) :=
  let original_query := query in
  let query :=
    if bool_decide (query_lang ≠ "en")
    then translate_query sys query query_lang "en"
    else query in
  ranked ← rank sys query method top_k;
  let elapsed_time := (end_time clock - start_time clock)%R in
  entries ← map_result (fun '(doc_id, score) =>
                           m ← metadata_of (sys_index sys) doc_id;
                           Ok (mkResultEntry doc_id score
                                 (meta_title m) (meta_url m)))
               ranked;
  let search_record :=
    mkSearchRecord original_query
      (if bool_decide (query ≠ original_query) then Some query else None)
      query_lang method (length ranked) elapsed_time (now_isoformat clock)
      entries in
  let sys' :=
    mkCLIRSystem (sys_index sys) (documents sys) (retrieval_models sys)
      (translator sys) (search_history sys ++ [search_record]) in
  out ← map_result (fun '(doc_id, score) =>
                       m ← metadata_of (sys_index sys) doc_id;
                       Ok (doc_id, score, m))
           ranked;
  Ok (out, sys').

(** A system whose index was built, from a fresh index object, over its own
    document list, with the two models registered: the states
    [scrape_and_index] leaves and [search] preserves. *)
Definition Indexed (docs : list Document) (sys : CLIRSystem) : Prop :=
  documents sys = docs
  ∧ sys_index sys = build_index new_index docs
  ∧ retrieval_models sys = registered_models.

(** ** Corpus-level quantities the index is compared with *)

(** The tokens document [doc_id] of the batch is indexed under ([[]] past the
    end of the batch). *)
Definition doc_tokens (docs : list Document) (doc_id : nat) : list string :=
  from_option (fun d => tokenize (doc_text d)) [] (docs !! doc_id).

(** Occurrences of [term] in a token list. *)
Definition occurrences (term : string) (toks : list string) : nat :=
  length (List.filter (String.eqb term) toks).

(** Term frequency of [term] in document [doc_id] of the batch. *)
Definition term_freq (docs : list Document) (term : string) (doc_id : nat) : nat :=
  occurrences term (doc_tokens docs doc_id).

(** Number of documents of the batch in which [term] occurs. *)
Definition document_frequency (docs : list Document) (term : string) : nat :=
  length (List.filter (fun d => 0 <? term_freq docs term d) (seq 0 (length docs))).

(** The term frequencies stored for [doc_id] in one posting list, summed. *)
Definition stored_tf (doc_id : nat) (postings : list Posting) : nat :=
  sum_list (snd <$> List.filter (fun p => fst p =? doc_id) postings).

(** The term frequencies stored for [doc_id] across all posting lists,
    summed. *)
Definition stored_tf_sum (idx : InvertedIndex) (doc_id : nat) : nat :=
  sum_list ((fun kv => stored_tf doc_id (snd kv)) <$> map_to_list (index idx)).

(** The ranking order of the specification: greater score first, and among
    equal scores the smaller document id first. *)
Definition ranks_before (x y : nat * R) : Prop :=
  (snd y < snd x)%R ∨ (snd x = snd y ∧ fst x < fst y).

(** ** The indexing loop, stated over the batch *)

(** The count a [Counter] holds for [t] ([None] for a missing key). *)
Fixpoint counter_get (t : string) (c : list (string * nat)) : option nat :=
  match c with
  | [] => None
  | (u, n) :: c' => if String.eqb u t then Some n else counter_get t c'
  end.

(** [c] holds the counts of [toks]: the number of occurrences for a token
    seen, no key for a token not seen. *)
Definition counts (c : list (string * nat)) (toks : list string) : Prop :=
  ∀ t, counter_get t c
       = if 0 <? occurrences t toks then Some (occurrences t toks) else None.

(** The postings of [term] for the documents before [n], as the
    specification describes them: one posting per document in which the term
    occurs, in ascending order of document id. *)
Definition postings_upto (docs : list Document) (term : string) (n : nat)
  : list Posting :=
  (fun d => (d, term_freq docs term d))
    <$> List.filter (fun d => 0 <? term_freq docs term d) (seq 0 n).

(** Total number of tokens of the documents before [n]. *)
Definition tokens_upto (docs : list Document) (n : nat) : nat :=
  sum_list ((fun d => length (doc_tokens docs d)) <$> seq 0 n).

(** The state of the loop of [build_index] once the documents before [n]
    are indexed. *)
Record LoopInv (docs : list Document) (n : nat) (st : InvertedIndex * nat)
  : Prop := mkLoopInv {
  inv_postings : ∀ t, get_postings st.1 t = postings_upto docs t n;
  inv_lengths : ∀ d,
    doc_lengths st.1 !! d
    = if decide (d < n) then Some (length (doc_tokens docs d)) else None;
  inv_metadata : ∀ d,
    doc_metadata st.1 !! d
    = if decide (d < n) then metadata_of_doc <$> docs !! d else None;
  inv_total : st.2 = tokens_upto docs n;
  inv_length_sum : sum_list (map_to_list (doc_lengths st.1)).*2 = st.2;
  inv_total_docs : total_docs st.1 = length docs;
  inv_vocabulary : ∀ t, t ∈ vocabulary st.1 ↔ get_postings st.1 t ≠ [];
  inv_stored : ∀ d,
    stored_tf_sum st.1 d
    = if decide (d < n) then length (doc_tokens docs d) else 0
}.

(** ** The scores as the specification writes them *)

(** Sum of a list of reals. *)
Definition sum_R (l : list R) : R := foldr Rplus 0%R l.

(** Mean document length of the batch, 0 for an empty batch. *)
Definition mean_doc_length (docs : list Document) : R :=
  if 0 <? length docs
  then (INR (tokens_upto docs (length docs)) / INR (length docs))%R
  else 0%R.

(** [ln((N+1)/(df+1)) + 1] *)
Definition tfidf_idf (N df : nat) : R :=
  (ln ((INR N + 1) / (INR df + 1)) + 1)%R.

(** [ln((N - df + 0.5)/(df + 0.5) + 1)] *)
Definition bm25_idf (N df : nat) : R :=
  ln ((INR N - INR df + 0.5) / (INR df + 0.5) + 1)%R.

(** What a query term adds to the TF-IDF score of a document: nothing unless
    the term occurs in the batch and in the document. *)
Definition tfidf_term (docs : list Document) (doc_id : nat) (term : string) : R :=
  let df := document_frequency docs term in
  let tf := term_freq docs term doc_id in
  if (0 <? df) && (0 <? tf)
  then tfidf_contribution (tfidf_idf (length docs) df) tf
  else 0%R.

Definition tfidf_score (docs : list Document) (query_terms : list string)
  (doc_id : nat) : R :=
  sum_R (tfidf_term docs doc_id <$> query_terms).

(** What a query term adds to the BM25 score of a document. *)
Definition bm25_term (k1 b : R) (docs : list Document) (doc_id : nat)
  (term : string) : R :=
  let df := document_frequency docs term in
  let tf := term_freq docs term doc_id in
  if (0 <? df) && (0 <? tf)
  then bm25_contribution k1 b (bm25_idf (length docs) df)
         (INR (length (doc_tokens docs doc_id))) (mean_doc_length docs) tf
  else 0%R.

Definition bm25_score (k1 b : R) (docs : list Document)
  (query_terms : list string) (doc_id : nat) : R :=
  sum_R (bm25_term k1 b docs doc_id <$> query_terms).

(** The score of a registered model, by its formula. *)
Definition model_score (model : RetrievalModel) (docs : list Document)
  (query_terms : list string) (doc_id : nat) : R :=
  match model with
  | TFIDFRetrieval => tfidf_score docs query_terms doc_id
  | BM25Retrieval k1 b => bm25_score k1 b docs query_terms doc_id
  end.

(** ** What a search computes, stated without the monad *)

(** The query [search] tokenizes. *)
Definition working_query (sys : CLIRSystem) (query query_lang : string) : string :=
  if bool_decide (query_lang ≠ "en")
  then translate_query sys query query_lang "en"
  else query.

(** The model [search] scores with once both models are registered. *)
Definition selected_model (method : string) : RetrievalModel :=
  if String.eqb method "tfidf" then TFIDFRetrieval else BM25_default.

(** The documents of [ids] with a positive score, in the order of [ids]. *)
Fixpoint positive_scores (score : nat → R) (ids : list nat) : list (nat * R) :=
  match ids with
  | [] => []
  | d :: ids' =>
      if Rlt_dec 0 (score d) then (d, score d) :: positive_scores score ids'
      else positive_scores score ids'
  end.

(** The full ranking of a batch for a model and query terms. *)
Definition ranking (model : RetrievalModel) (docs : list Document)
  (query_terms : list string) : list (nat * R) :=
  sort_desc (positive_scores (model_score model docs query_terms)
               (seq 0 (length docs))).

(** The metadata of document [doc_id] of the batch. *)
Definition meta_at (docs : list Document) (doc_id : nat) : Metadata :=
  from_option metadata_of_doc (mkMetadata "" "" None "") (docs !! doc_id).

(** The record a search appends, given its truncated ranking. *)
Definition record_of (clock : Clock) (docs : list Document)
  (query working method query_lang : string) (ranked : list (nat * R))
  : SearchRecord :=
  mkSearchRecord query
    (if bool_decide (working ≠ query) then Some working else None)
    query_lang method (length ranked)
    (end_time clock - start_time clock)%R (now_isoformat clock)
    ((fun p => mkResultEntry (fst p) (snd p)
                 (meta_title (meta_at docs (fst p)))
                 (meta_url (meta_at docs (fst p)))) <$> ranked).

(** A system with one more record in its history. *)
Definition with_record (sys : CLIRSystem) (r : SearchRecord) : CLIRSystem :=
  mkCLIRSystem (sys_index sys) (documents sys) (retrieval_models sys)
    (translator sys) (search_history sys ++ [r]).

(** ** Scenario A of the specification *)

(** A document whose body is [text]. *)
Definition text_doc (text : string) : Document :=
  mkDocument "" text "" None "en" 0 [].

Definition scenario_corpus : list Document :=
  [text_doc "cat dog"; text_doc "cat cat mouse"; text_doc "dog mouse mouse"].

(** The scores of the scenario for the query ["cat"]. *)
Definition scenario_score_0 : R := (ln (8 / 5) * (80 / 71))%R.
Definition scenario_score_1 : R := (ln (8 / 5) * (320 / 233))%R.

(** A clock and a translator for closed examples. *)
Definition example_clock : Clock := mkClock 0%R 1%R "2025-01-01T00:00:00".

Definition failing_translator : Translator :=
  fun _ _ _ => Raise TranslationError.

(** The (doc_id, score) part of the entries [search] returns. *)
Definition id_score (r : nat * R * Metadata) : nat * R := (fst (fst r), snd (fst r)).

(** ** The scraper *)

(** [needle in text] on strings. *)
Fixpoint contains (needle text : string) : bool :=
  String.prefix needle text
  || match text with
     | EmptyString => false
     | String _ rest => contains needle rest
     end.

(** The body of the loop of [scrape_homepage_links] over the [href]
    attributes of the anchors. *)
Definition link_step (base_url : string) (links : list string) (href : string)
  : list string :=
  if contains "/news/" href || contains "/article/" href then
    let href := if String.prefix "/" href then base_url +:+ href else href in
    if bool_decide (href ∈ links) then links else links ++ [href]
  else links.

(** [DailyStarScraper.scrape_homepage_links]; [page] is what fetching and
    parsing the homepage gives: the [href] attributes of its anchors in
    document order, or [None] when an exception was raised. *)
Definition scrape_homepage_links (base_url : string) (page : option (list string))
  : list string :=
  match page with
  | Some hrefs => slice_to (fold_left (link_step base_url) hrefs []) 50
  | None => []
  end.

(** An [href] the loop keeps, and the link it is stored as. *)
Definition is_article_link (href : string) : bool :=
  contains "/news/" href || contains "/article/" href.

Definition absolute_link (base_url href : string) : string :=
  if String.prefix "/" href then base_url +:+ href else href.

(** [DailyStarScraper.scrape_multiple]; [scrape_article] is the outcome of
    scraping a url, [None] when it failed. *)
Definition scrape_multiple (base_url : string) (page : option (list string))
  (scrape_article : string → option Document) (max_pages : Z) : list Document :=
  let article_urls := scrape_homepage_links base_url page in
  omap scrape_article (slice_to article_urls max_pages).

(** [str.isupper] on one character. *)
Definition char_isupper (c : ascii) : bool :=
  Char.between 65 90 c || Char.between 192 214 c || Char.between 216 222 c.

(** [word[0].isupper() and len(word) > 1]; a word of [text.split()] is never
    empty. *)
Definition capitalised (word : string) : bool :=
  match word with
  | EmptyString => false
  | String c _ => char_isupper c && (1 <? String.length word)
  end.

(** [word[-1] in '.!?'] *)
Definition ends_sentence (word : string) : bool :=
  match last (list_ascii_of_string word) with
  | Some c => Ascii.eqb c "." || Ascii.eqb c "!" || Ascii.eqb c "?"
  | None => false
  end.

(** The list [entities] that the loop of [extract_named_entities] collects;
    for [i = 0] the word [words[i-1]] is the last word of the text. *)
Definition entity_candidates (text : string) : list string :=
  let words := split text in
  omap (fun iw : nat * string =>
          let '(i, word) := iw in
          if capitalised word
             && ((0 <? i)
                 || ((i =? 0)
                     && negb (from_option ends_sentence false (last words))))
          then Some word else None)
       (enumerate words).

(** [list(set(entities))[:10]]: the order of a [set] is not fixed, so the
    result is specified as a relation. *)
Definition extract_named_entities (text : string) (res : list string) : Prop :=
  ∃ uniq, NoDup uniq
          ∧ (∀ w, w ∈ uniq ↔ w ∈ entity_candidates text)
          ∧ res = slice_to uniq 10.

(** ** Index statistics *)

(** [sort(key=lambda x: x[1], reverse=True)] on (term, frequency) pairs. *)
Fixpoint insert_by_freq (x : string * nat) (l : list (string * nat))
  : list (string * nat) :=
  match l with
  | [] => [x]
  | y :: l' => if snd x <? snd y then y :: insert_by_freq x l' else x :: y :: l'
  end.

Fixpoint sort_by_freq (l : list (string * nat)) : list (string * nat) :=
  match l with
  | [] => []
  | x :: l' => insert_by_freq x (sort_by_freq l')
  end.

(** [CLIRSystem._get_top_terms]; [items] is [self.index.index.items()], the
    entries of the index in the order the [dict] holds them. *)
Definition get_top_terms (items : list (string * list Posting)) (n : Z)
  : list (string * nat) :=
  let term_doc_freq := (fun kv => (fst kv, length (snd kv))) <$> items in
  slice_to (sort_by_freq term_doc_freq) n.

(** The ['index_statistics'] entry of [save_complete_data]. *)
Record IndexStatistics : Type := mkIndexStatistics {
  total_documents : nat;
  vocabulary_size : nat;
  average_document_length : R;
  total_postings : nat;
  top_20_frequent_terms : list (string * nat)
}.

Definition index_statistics (idx : InvertedIndex)
  (items : list (string * list Posting)) : IndexStatistics :=
  mkIndexStatistics (total_docs idx) (size (vocabulary idx))
    (avg_doc_length idx)
    (sum_list ((fun kv => length (snd kv)) <$> items))
    (get_top_terms items 20).

(** Number of distinct tokens of a document of the batch. *)
Definition distinct_terms (docs : list Document) (doc_id : nat) : nat :=
  length (Counter (doc_tokens docs doc_id)).

(** ** The evaluation harness *)

(** An entry of [test_queries]: the key ['query'] and the optional key
    ['lang']. *)
Record TestQuery : Type := mkTestQuery {
  tq_query : string;
  tq_lang : option string
}.

(** An entry of ['query_results']. *)
Record QueryResult : Type := mkQueryResult {
  qr_query : string;
  qr_num_results : nat;
  qr_latency_seconds : R;
  qr_top_3_docs : list (string * R)
}.

(** The statistics of one method. *)
Record MethodStats : Type := mkMethodStats {
  ms_method : string;
  ms_queries_tested : nat;
  ms_query_results : list QueryResult;
  ms_total_latency : R;
  ms_avg_latency : R
}.

(** The clock readings of one round of the inner loop of
    [evaluate_retrieval]: before the search, inside it, after it. *)
Record EvalClock : Type := mkEvalClock {
  call_start : R;
  call_clock : Clock;
  call_end : R
}.

(** One round of the inner loop: the running statistics and the system. *)
Definition evaluate_query (clock_at : nat → EvalClock) (method_name : string)
  (acc : MethodStats * CLIRSystem) (entry : nat * TestQuery)
  : result (MethodStats * CLIRSystem) :=
  let '(stats, sys) := acc in
  let '(i, query_data) := entry in
  let q := tq_query query_data in
  let clk := clock_at i in
  '(found, sys') ← search (call_clock clk) sys q method_name 10
                     (default "en" (tq_lang query_data));
  let elapsed := (call_end clk - call_start clk)%R in
  let query_result :=
    mkQueryResult q (length found) elapsed
      ((fun r => (meta_title (snd r), snd (fst r))) <$> slice_to found 3) in
  Ok (mkMethodStats (ms_method stats) (ms_queries_tested stats)
        (ms_query_results stats ++ [query_result])
        (ms_total_latency stats + elapsed)%R (ms_avg_latency stats),
      sys').

(** One round of the outer loop, for one method. *)
Definition evaluate_method (clock_at : string → nat → EvalClock)
  (test_queries : list TestQuery)
  (acc : gmap string MethodStats * CLIRSystem) (method_name : string)
  : result (gmap string MethodStats * CLIRSystem) :=
  let '(evaluation_results, sys) := acc in
  let stats0 := mkMethodStats method_name (length test_queries) [] 0%R 0%R in
  '(stats, sys') ← foldM (evaluate_query (clock_at method_name) method_name)
                     (enumerate test_queries) (stats0, sys);
  avg ← match test_queries with
        | [] => Ok 0%R
        | _ => true_div (ms_total_latency stats) (INR (length test_queries))
        end;
  Ok (<[method_name :=
          mkMethodStats (ms_method stats) (ms_queries_tested stats)
            (ms_query_results stats) (ms_total_latency stats) avg]>
        evaluation_results,
      sys').

(** [CLIRSystem.evaluate_retrieval] *)
Definition evaluate_retrieval (clock_at : string → nat → EvalClock)
  (sys : CLIRSystem) (test_queries : list TestQuery)
  : result (gmap string MethodStats * CLIRSystem) :=
  foldM (evaluate_method clock_at test_queries) ["tfidf"; "bm25"] (∅, sys).

(** ** Corpus-level quantities for the further properties *)

(** All tokens of the batch, document after document. *)
Definition corpus_tokens (docs : list Document) : list string :=
  mjoin ((fun doc => tokenize (doc_text doc)) <$> docs).

(** The number of postings an index holds. *)
Definition postings_total (m : gmap string (list Posting)) : nat :=
  sum_list ((fun kv => length (snd kv)) <$> map_to_list m).

(** ** What the evaluation harness reports, stated per entry *)

(** The entry of ['query_results'] for the test query at index [fst e]. *)
Definition query_result_ok (clk : nat → EvalClock) (e : nat * TestQuery)
  (qr : QueryResult) : Prop :=
  qr_query qr = tq_query (snd e)
  ∧ qr_num_results qr ≤ 10
  ∧ length (qr_top_3_docs qr) = min 3 (qr_num_results qr)
  ∧ qr_latency_seconds qr
    = (call_end (clk (fst e)) - call_start (clk (fst e)))%R.

(** The history record of the search for a test query with method [m]. *)
Definition eval_record_ok (m : string) (e : nat * TestQuery) (r : SearchRecord)
  : Prop :=
  query r = tq_query (snd e)
  ∧ method r = m
  ∧ query_language r = default "en" (tq_lang (snd e))
  ∧ num_results r ≤ 10.

(** The statistics of method [m] over the test queries. *)
Definition method_stats_ok (clk : nat → EvalClock) (m : string)
  (test_queries : list TestQuery) (st : MethodStats) : Prop :=
  ms_method st = m
  ∧ ms_queries_tested st = length test_queries
  ∧ Forall2 (query_result_ok clk) (enumerate test_queries) (ms_query_results st)
  ∧ ms_total_latency st = sum_R (qr_latency_seconds <$> ms_query_results st)
  ∧ ms_avg_latency st
    = match test_queries with
      | [] => 0%R
      | _ => (ms_total_latency st / INR (length test_queries))%R
      end.

(** A translator that answers every query with ["cat"]. *)
Definition cat_translator : Translator := fun _ _ _ => Ok "cat".

(** Case analysis on every string comparison of the goal. *)
Ltac str_cases :=
  repeat match goal with
         | |- context [String.eqb ?a ?b] =>
             destruct (String.eqb_spec a b); subst; simpl
         end;
  try congruence.

(** * Properties *)

(** ** Tokenizer *)

Section Tokenizer.

Lemma str_map_ext (f g : ascii → ascii) (s : string) :
  (∀ c, f c = g c) → str_map f s = str_map g s.
Proof.
  intros Hfg. induction s as [|c s IH]; simpl; [done|]. by rewrite Hfg, IH.
Qed.

Lemma str_map_chars (f : ascii → ascii) (s : string) :
  list_ascii_of_string (str_map f s) = f <$> list_ascii_of_string s.
Proof. induction s as [|c s IH]; simpl; [done|]. by rewrite IH. Qed.

Lemma class_agrees (c : ascii) :
  nonword_nonspace c = not_letter_digit_underscore_space c.
Proof.
  unfold nonword_nonspace, not_letter_digit_underscore_space, Char.isword,
    Char.isalnum.
  f_equal. f_equal. f_equal.
  destruct c as [[] [] [] [] [] [] [] []]; reflexivity.
Qed.

Lemma prepared_token_char (c : ascii) :
  Char.isspace (prepared c) = false → token_char (prepared c).
Proof.
  unfold token_char.
  destruct c as [[] [] [] [] [] [] [] []]; vm_compute; intros; (done || auto).
Qed.

Lemma flush_Forall (P : ascii → Prop) (cur : list ascii) :
  Forall P cur →
  Forall (fun t => t ≠ EmptyString ∧ Forall P (list_ascii_of_string t)) (flush cur).
Proof.
  intros Hcur. destruct cur as [|c cur]; [constructor|].
  constructor; [|constructor]. split.
  - simpl. intros Heq. apply (f_equal list_ascii_of_string) in Heq.
    rewrite list_ascii_of_string_of_list_ascii in Heq. simpl in Heq.
    by destruct (rev cur).
  - rewrite list_ascii_of_string_of_list_ascii. by apply Forall_rev.
Qed.

(** Every piece [split] returns is a non-empty run of non-whitespace
    characters of the text. *)
Lemma split_from_Forall (P : ascii → Prop) (text : string) (cur : list ascii) :
  Forall P cur →
  Forall (fun c => Char.isspace c = false → P c) (list_ascii_of_string text) →
  Forall (fun t => t ≠ EmptyString ∧ Forall P (list_ascii_of_string t))
    (split_from cur text).
Proof.
  revert cur. induction text as [|c rest IH]; intros cur Hcur Htext; simpl.
  - by apply flush_Forall.
  - inversion Htext as [|? ? Hc Hrest]; subst.
    destruct (Char.isspace c) eqn:Hsp.
    + apply Forall_app. split; [by apply flush_Forall|]. by apply IH.
    + apply IH; [|done]. constructor; [by apply Hc|done].
Qed.

Lemma tokenize_tokens (text : string) :
  Forall (fun t => 2 < String.length t ∧ Forall token_char (list_ascii_of_string t))
    (tokenize text).
Proof.
  unfold tokenize. apply Forall_forall. intros t Hin.
  apply list_elem_of_In, filter_In in Hin. destruct Hin as [Hin Hlen].
  apply Nat.ltb_lt in Hlen. split; [done|].
  assert (Hsplit : Forall (fun t => t ≠ EmptyString
                                    ∧ Forall token_char (list_ascii_of_string t))
                     (split (re_sub_class nonword_nonspace (lower text)))).
  { apply split_from_Forall; [constructor|].
    unfold re_sub_class, lower. rewrite !str_map_chars, <- list_fmap_compose.
    apply Forall_fmap, Forall_forall. intros c _ Hsp.
    by apply (prepared_token_char c). }
  apply list_elem_of_In in Hin.
  by destruct (proj1 (Forall_forall _ _) Hsplit t Hin).
Qed.

Lemma tokenize_amended_eq (text : string) : tokenize text = tokenize_amended text.
Proof.
  unfold tokenize, tokenize_amended, re_sub_class. f_equal. f_equal.
  apply str_map_ext. intros c. by rewrite class_agrees.
Qed.

End Tokenizer.

(** C6, as stated, fails: the underscore is neither a letter, a digit nor
    whitespace, yet [[^\w\s]] does not match it, so [tokenize] keeps it. *)
Lemma tokenize_keeps_underscore :
  tokenize "foo_bar" = ["foo_bar"]
  ∧ tokenize_spec "foo_bar" = ["foo"; "bar"]
  ∧ ¬ (∀ text, tokenize text = tokenize_spec text).
Proof.
  split; [reflexivity|]. split; [reflexivity|].
  intros Hall. specialize (Hall "foo_bar"). vm_compute in Hall. discriminate.
Qed.

(** C6, amended: [tokenize] lower-cases the text, replaces every character
    that is not a letter, a digit, the underscore or whitespace with a space,
    splits on whitespace and drops the tokens of length at most 2.  Hence
    every token is longer than 2 and made of lower-case letters, digits and
    underscores, and the empty string yields no token. *)
Theorem tokenize_policy (text : string) :
  tokenize text = tokenize_amended text
  ∧ Forall (fun t => 2 < String.length t
                     ∧ Forall token_char (list_ascii_of_string t))
      (tokenize text)
  ∧ tokenize "" = [].
Proof.
  split; [apply tokenize_amended_eq|]. split; [apply tokenize_tokens|reflexivity].
Qed.

(** ** Counter *)

Section CounterFacts.

Implicit Types (c : list (string * nat)) (t u : string) (toks : list string).

Lemma counter_get_incr t u c :
  counter_get t (counter_incr u c)
  = if String.eqb u t then Some (S (default 0 (counter_get u c)))
    else counter_get t c.
Proof.
  induction c as [|[v n] c IH]; simpl; [by str_cases|].
  destruct (String.eqb_spec v u) as [->|Hvu]; simpl.
  - by str_cases.
  - rewrite IH. by str_cases.
Qed.

Lemma occurrences_cons t u toks :
  occurrences t (u :: toks)
  = (if String.eqb u t then 1 else 0) + occurrences t toks.
Proof.
  unfold occurrences. simpl. rewrite (String.eqb_sym t u).
  by destruct (String.eqb u t).
Qed.

Lemma counts_incr c toks u :
  counts c toks → counts (counter_incr u c) (toks ++ [u]).
Proof.
  intros Hc t. rewrite counter_get_incr, (Hc t), (Hc u).
  assert (Happ : ∀ v, occurrences v (toks ++ [u])
                      = occurrences v toks + if String.eqb u v then 1 else 0).
  { intros v. unfold occurrences. rewrite List.filter_app, length_app. simpl.
    rewrite (String.eqb_sym v u). by destruct (String.eqb u v). }
  rewrite Happ.
  destruct (String.eqb_spec u t) as [->|Hut].
  - replace (occurrences t toks + 1) with (S (occurrences t toks)) by lia.
    simpl. by destruct (occurrences t toks).
  - by rewrite Nat.add_0_r.
Qed.

Lemma fold_counter_incr toks' : ∀ c toks,
  counts c toks →
  counts (fold_left (fun c t => counter_incr t c) toks' c) (toks ++ toks').
Proof.
  induction toks' as [|u toks' IH]; intros c toks Hc; simpl.
  - by rewrite app_nil_r.
  - replace (toks ++ u :: toks') with ((toks ++ [u]) ++ toks')
      by (by rewrite <- app_assoc).
    apply IH. by apply counts_incr.
Qed.

Lemma Counter_get t toks :
  counter_get t (Counter toks)
  = if 0 <? occurrences t toks then Some (occurrences t toks) else None.
Proof.
  apply (fold_counter_incr toks [] []). intros v. reflexivity.
Qed.

Lemma counter_incr_keys u c :
  (counter_incr u c).*1 = if decide (u ∈ c.*1) then c.*1 else c.*1 ++ [u].
Proof.
  induction c as [|[v n] c IH]; csimpl; [done|].
  destruct (String.eqb_spec v u) as [->|Hvu]; csimpl.
  - clear IH. case_decide as Hin; [done|]. exfalso. apply Hin, list_elem_of_here.
  - rewrite IH. clear IH.
    destruct (decide (u ∈ c.*1)) as [Hin|Hnin],
             (decide (u ∈ v :: c.*1)) as [Hin'|Hnin']; try done.
    + exfalso. by apply Hnin', list_elem_of_further.
    + apply elem_of_cons in Hin' as [Heq|Hin']; [congruence|done].
Qed.

Lemma counter_incr_NoDup u c : NoDup c.*1 → NoDup (counter_incr u c).*1.
Proof.
  intros Hnd. rewrite counter_incr_keys. destruct (decide (u ∈ c.*1)); [done|].
  apply NoDup_app. split; [done|]. split; [|apply NoDup_singleton].
  intros x Hx ->%list_elem_of_singleton. done.
Qed.

Lemma Counter_NoDup toks : NoDup (Counter toks).*1.
Proof.
  unfold Counter. generalize (NoDup_nil_2 (A:=string)).
  change (@nil string) with ((@nil (string * nat)).*1).
  generalize (@nil (string * nat)).
  induction toks as [|u toks IH]; intros c Hc; simpl; [done|].
  apply IH. by apply counter_incr_NoDup.
Qed.

Lemma counter_incr_sum u c :
  sum_list (counter_incr u c).*2 = S (sum_list c.*2).
Proof.
  induction c as [|[v n] c IH]; csimpl; [done|].
  destruct (String.eqb v u); csimpl; [done|]. rewrite IH. lia.
Qed.

Lemma Counter_sum toks : sum_list (Counter toks).*2 = length toks.
Proof.
  unfold Counter.
  enough (H : ∀ c, sum_list (fold_left (fun c t => counter_incr t c) toks c).*2
                   = sum_list c.*2 + length toks) by apply (H []).
  induction toks as [|u toks IH]; intros c; simpl; [lia|].
  rewrite IH, counter_incr_sum. lia.
Qed.

(** With distinct keys, the items under one key are the looked-up count. *)
Lemma filter_key_NoDup t c :
  NoDup c.*1 →
  List.filter (fun p => String.eqb (fst p) t) c
  = match counter_get t c with
    | Some n => [(t, n)]
    | None => []
    end.
Proof.
  induction c as [|[v n] c IH]; simpl; [done|].
  intros [Hnin Hnd]%NoDup_cons. rewrite (IH Hnd).
  destruct (String.eqb_spec v t) as [->|Hvt]; [|done].
  assert (Hnone : counter_get t c = None).
  { clear -Hnin. induction c as [|[w m] c IH]; simpl; [done|].
    destruct (String.eqb_spec w t) as [->|Hwt].
    - exfalso. apply Hnin. simpl. apply list_elem_of_here.
    - apply IH. intros Hin. apply Hnin. simpl. by apply list_elem_of_further. }
  by rewrite Hnone.
Qed.

Lemma Counter_items t toks :
  List.filter (fun p => String.eqb (fst p) t) (Counter toks)
  = if 0 <? occurrences t toks then [(t, occurrences t toks)] else [].
Proof.
  rewrite filter_key_NoDup by apply Counter_NoDup. rewrite Counter_get.
  by destruct (0 <? occurrences t toks).
Qed.

Lemma counter_get_keys t c : t ∈ c.*1 ↔ is_Some (counter_get t c).
Proof.
  induction c as [|[v n] c IH]; csimpl.
  - split; [intros Hin; by apply not_elem_of_nil in Hin|by intros [? ?]].
  - rewrite elem_of_cons, IH.
    destruct (String.eqb_spec v t) as [->|Hvt]; [by split; eauto|].
    split; [intros [?|?]; [congruence|done]|by right].
Qed.

Lemma Counter_keys t toks : t ∈ (Counter toks).*1 ↔ 0 < occurrences t toks.
Proof.
  rewrite counter_get_keys, Counter_get.
  destruct (Nat.ltb_spec 0 (occurrences t toks)).
  - split; [done|by eauto].
  - split; [by intros [? ?]|lia].
Qed.

End CounterFacts.

(** ** Building the index *)

Section BuildIndex.

Implicit Types (idx : InvertedIndex) (c : list (string * nat))
  (docs : list Document) (t u : string) (d k n : nat).

Lemma get_postings_add_posting k idx u n t :
  get_postings (add_posting k idx (u, n)) t
  = get_postings idx t ++ (if String.eqb u t then [(k, n)] else []).
Proof.
  unfold get_postings. simpl. rewrite lookup_insert.
  destruct (String.eqb_spec u t) as [->|Hut].
  - by rewrite decide_True.
  - rewrite decide_False by done. by rewrite app_nil_r.
Qed.

Lemma fold_add_posting_postings k c : ∀ idx t,
  get_postings (fold_left (add_posting k) c idx) t
  = get_postings idx t
    ++ ((fun p => (k, snd p)) <$> List.filter (fun p => String.eqb (fst p) t) c).
Proof.
  induction c as [|[u n] c IH]; intros idx t; cbn [fold_left].
  - simpl. by rewrite app_nil_r.
  - rewrite IH, get_postings_add_posting, <- app_assoc. cbn [List.filter fst].
    by destruct (String.eqb u t).
Qed.

Lemma fold_add_posting_fields k c : ∀ idx,
  doc_lengths (fold_left (add_posting k) c idx) = doc_lengths idx
  ∧ doc_metadata (fold_left (add_posting k) c idx) = doc_metadata idx
  ∧ total_docs (fold_left (add_posting k) c idx) = total_docs idx
  ∧ avg_doc_length (fold_left (add_posting k) c idx) = avg_doc_length idx.
Proof.
  induction c as [|[u n] c IH]; intros idx; cbn [fold_left]; [done|].
  destruct (IH (add_posting k idx (u, n))) as (-> & -> & -> & ->). done.
Qed.

Lemma fold_add_posting_vocabulary k c : ∀ idx t,
  t ∈ vocabulary (fold_left (add_posting k) c idx)
  ↔ t ∈ vocabulary idx ∨ t ∈ c.*1.
Proof.
  induction c as [|[u n] c IH]; intros idx t; cbn [fold_left].
  - csimpl. split; [by left|]. intros [?|Hin]; [done|].
    by apply not_elem_of_nil in Hin.
  - rewrite IH. csimpl. rewrite elem_of_union, elem_of_singleton, elem_of_cons.
    tauto.
Qed.

Lemma stored_tf_app d (ps qs : list Posting) :
  stored_tf d (ps ++ qs) = stored_tf d ps + stored_tf d qs.
Proof.
  unfold stored_tf. by rewrite List.filter_app, fmap_app, sum_list_with_app.
Qed.

Lemma sum_list_Permutation (l1 l2 : list nat) :
  l1 ≡ₚ l2 → sum_list l1 = sum_list l2.
Proof. induction 1; simpl; lia. Qed.

(** Replacing the list under one key changes the sum by the difference. *)
Lemma stored_sum_insert d (m : gmap string (list Posting)) t (ps : list Posting) :
  sum_list ((fun kv => stored_tf d (snd kv)) <$> map_to_list (<[t := ps]> m))
  + stored_tf d (default [] (m !! t))
  = sum_list ((fun kv => stored_tf d (snd kv)) <$> map_to_list m)
    + stored_tf d ps.
Proof.
  assert (Hins : map_to_list (<[t := ps]> m)
                 ≡ₚ (t, ps) :: map_to_list (delete t m)).
  { rewrite <- insert_delete_eq. apply map_to_list_insert, lookup_delete_eq. }
  rewrite (sum_list_Permutation _ _ (fmap_Permutation _ _ _ Hins)). csimpl.
  destruct (m !! t) as [qs|] eqn:Hlook; simpl.
  - pose proof (map_to_list_delete m t qs Hlook) as Hdel.
    rewrite <- (sum_list_Permutation _ _ (fmap_Permutation
                  (fun kv => stored_tf d (snd kv)) _ _ Hdel)).
    csimpl. lia.
  - rewrite delete_id by done. unfold stored_tf at 3. simpl. lia.
Qed.

Lemma stored_tf_sum_add_posting k idx u n d :
  stored_tf_sum (add_posting k idx (u, n)) d
  = stored_tf_sum idx d + (if k =? d then n else 0).
Proof.
  unfold stored_tf_sum. simpl.
  pose proof (stored_sum_insert d (index idx) u
                (default [] (index idx !! u) ++ [(k, n)])) as Hsum.
  rewrite stored_tf_app in Hsum.
  assert (Hone : stored_tf d [(k, n)] = if k =? d then n else 0).
  { unfold stored_tf. simpl. destruct (k =? d); simpl; lia. }
  rewrite Hone in Hsum. lia.
Qed.

Lemma stored_tf_sum_fold k c d : ∀ idx,
  stored_tf_sum (fold_left (add_posting k) c idx) d
  = stored_tf_sum idx d + (if k =? d then sum_list c.*2 else 0).
Proof.
  induction c as [|[u n] c IH]; intros idx; cbn [fold_left].
  - simpl. destruct (k =? d); lia.
  - rewrite IH, stored_tf_sum_add_posting. csimpl. destruct (k =? d); lia.
Qed.

Lemma doc_tokens_lookup docs n doc :
  docs !! n = Some doc → doc_tokens docs n = tokenize (doc_text doc).
Proof. intros H. unfold doc_tokens. by rewrite H. Qed.

Lemma postings_upto_S docs t n :
  postings_upto docs t (S n)
  = postings_upto docs t n
    ++ (if 0 <? term_freq docs t n then [(n, term_freq docs t n)] else []).
Proof.
  unfold postings_upto. rewrite seq_S, List.filter_app, fmap_app. simpl.
  by destruct (0 <? term_freq docs t n).
Qed.

Lemma tokens_upto_S docs n :
  tokens_upto docs (S n) = tokens_upto docs n + length (doc_tokens docs n).
Proof.
  unfold tokens_upto. rewrite seq_S, fmap_app, sum_list_with_app. simpl. lia.
Qed.

(** One round of the outer loop indexes document [n]. *)
Lemma index_document_inv docs n doc (st : InvertedIndex * nat) :
  docs !! n = Some doc →
  LoopInv docs n st → LoopInv docs (S n) (index_document st (n, doc)).
Proof.
  intros Hdoc [Hpost Hlen Hmeta Htot Hsum Hnum Hvoc Hsto].
  destruct st as [idx total].
  simpl in *. unfold index_document.
  set (toks := tokenize (doc_text doc)).
  set (idx1 := mkInvertedIndex _ _ _ _ _ _).
  pose proof (doc_tokens_lookup docs n doc Hdoc) as Htoks. fold toks in Htoks.
  destruct (fold_add_posting_fields n (Counter toks) idx1)
    as (Hf1 & Hf2 & Hf3 & _).
  constructor; simpl.
  - intros t. rewrite fold_add_posting_postings, Counter_items.
    change (get_postings idx1 t) with (get_postings idx t).
    rewrite Hpost, postings_upto_S. unfold term_freq. rewrite Htoks.
    by destruct (0 <? occurrences t toks).
  - intros d. rewrite Hf1. simpl. rewrite lookup_insert, Hlen.
    destruct (decide (n = d)) as [<-|Hne].
    + rewrite decide_True by lia. by rewrite Htoks.
    + destruct (decide (d < n)), (decide (d < S n)); (done || lia).
  - intros d. rewrite Hf2. simpl. rewrite lookup_insert, Hmeta.
    destruct (decide (n = d)) as [<-|Hne].
    + rewrite decide_True by lia. by rewrite Hdoc.
    + destruct (decide (d < n)), (decide (d < S n)); (done || lia).
  - rewrite tokens_upto_S, Htot, Htoks. done.
  - rewrite Hf1. simpl.
    assert (Hfresh : doc_lengths idx !! n = None).
    { rewrite Hlen. rewrite decide_False by lia. done. }
    rewrite (sum_list_Permutation _ _
               (fmap_Permutation snd _ _
                  (map_to_list_insert _ n (length toks) Hfresh))).
    csimpl. rewrite Hsum. lia.
  - by rewrite Hf3.
  - intros t. rewrite fold_add_posting_vocabulary, Counter_keys.
    change (vocabulary idx1) with (vocabulary idx). rewrite Hvoc.
    rewrite fold_add_posting_postings, Counter_items.
    change (get_postings idx1 t) with (get_postings idx t).
    destruct (get_postings idx t) as [|p ps]; simpl.
    + destruct (Nat.ltb_spec 0 (occurrences t toks)) as [Hocc|Hocc]; simpl.
      * split; [done|]. intros _. by right.
      * split; [|done]. intros [Hne|Hpos]; [done|lia].
    + split; [done|]. intros _. by left.
  - intros d. rewrite stored_tf_sum_fold, Counter_sum.
    change (stored_tf_sum idx1 d) with (stored_tf_sum idx d). rewrite Hsto.
    destruct (Nat.eqb_spec n d) as [<-|Hne].
    + rewrite decide_False by lia. rewrite decide_True by lia.
      by rewrite Htoks.
    + destruct (decide (d < n)), (decide (d < S n)); (done || lia).
Qed.

Lemma enumerate_loop_inv docs (rest : list Document) : ∀ done_ st,
  docs = done_ ++ rest →
  LoopInv docs (length done_) st →
  LoopInv docs (length docs)
    (fold_left index_document (enumerate_from (length done_) rest) st).
Proof.
  induction rest as [|doc rest IH]; intros done_ st Hdocs Hinv; simpl.
  - rewrite app_nil_r in Hdocs. by subst.
  - specialize (IH (done_ ++ [doc]) (index_document st (length done_, doc))).
    rewrite length_app in IH. simpl in IH. rewrite Nat.add_1_r in IH.
    apply IH.
    + by rewrite <- app_assoc.
    + apply index_document_inv; [|done]. subst docs.
      by rewrite list_lookup_middle.
Qed.

Lemma new_index_inv docs :
  LoopInv docs 0
    (mkInvertedIndex (index new_index) (doc_lengths new_index)
       (doc_metadata new_index) (vocabulary new_index) (length docs)
       (avg_doc_length new_index), 0).
Proof. constructor; done. Qed.

Lemma build_loop_inv docs :
  LoopInv docs (length docs) (build_loop new_index docs).
Proof.
  unfold build_loop, enumerate.
  apply (enumerate_loop_inv docs docs []); [done|]. apply new_index_inv.
Qed.

End BuildIndex.

Lemma build_index_nil (idx : InvertedIndex) :
  build_index idx []
  = mkInvertedIndex (index idx) (doc_lengths idx) (doc_metadata idx)
      (vocabulary idx) 0 0%R.
Proof. reflexivity. Qed.

(** What [build_index] leaves in a fresh index, field by field. *)
Lemma build_index_fields (docs : list Document) :
  let idx := build_index new_index docs in
  (∀ t, get_postings idx t = postings_upto docs t (length docs))
  ∧ (∀ d, doc_lengths idx !! d
          = if decide (d < length docs)
            then Some (length (doc_tokens docs d)) else None)
  ∧ (∀ d, doc_metadata idx !! d
          = if decide (d < length docs)
            then metadata_of_doc <$> docs !! d else None)
  ∧ total_docs idx = length docs
  ∧ avg_doc_length idx
    = (if 0 <? length docs
       then (INR (tokens_upto docs (length docs)) / INR (length docs))%R
       else 0%R)
  ∧ sum_list (map_to_list (doc_lengths idx)).*2 = tokens_upto docs (length docs)
  ∧ (∀ d, stored_tf_sum idx d = length (doc_tokens docs d))
  ∧ (∀ t, t ∈ vocabulary idx ↔ get_postings idx t ≠ []).
Proof.
  pose proof (build_loop_inv docs) as Hinv. unfold build_index.
  destruct (build_loop new_index docs) as [idx total].
  destruct Hinv as [Hpost Hlen Hmeta Htot Hsum Hnum Hvoc Hsto]. simpl in *.
  split_and!; try done.
  - by rewrite Hnum, Htot.
  - by rewrite Hsum.
  - intros d. unfold stored_tf_sum in *. simpl. rewrite Hsto.
    case_decide as Hd; [done|]. unfold doc_tokens.
    rewrite lookup_ge_None_2 by lia. done.
Qed.

(** C2: after [build_index] on a fresh index, [avg_doc_length] is the sum of
    the recorded document lengths divided by [total_docs] (0 for an empty
    batch); the document frequency of a term is the length of its posting
    list; and for every document of the batch the term frequencies stored
    under its id add up to its recorded length, the number of tokens of
    [title + ' ' + body]. *)
Theorem build_index_invariants (docs : list Document) :
  let idx := build_index new_index docs in
  avg_doc_length idx
  = (if 0 <? total_docs idx
     then (INR (sum_list (map_to_list (doc_lengths idx)).*2)
           / INR (total_docs idx))%R
     else 0%R)
  ∧ (∀ term, get_doc_freq idx term = length (get_postings idx term))
  ∧ (∀ doc_id doc, docs !! doc_id = Some doc →
       doc_lengths idx !! doc_id = Some (length (tokenize (doc_text doc)))
       ∧ stored_tf_sum idx doc_id = length (tokenize (doc_text doc))).
Proof.
  destruct (build_index_fields docs)
    as (Hpost & Hlen & Hmeta & Hnum & Havg & Hsum & Hsto & _).
  cbv zeta. split; [|split].
  - by rewrite Havg, Hnum, Hsum.
  - done.
  - intros d doc Hdoc. rewrite Hlen, Hsto.
    rewrite decide_True by (by eapply lookup_lt_Some).
    by rewrite (doc_tokens_lookup docs d doc Hdoc).
Qed.

Lemma build_index_invariants_witness :
  doc_lengths (build_index new_index scenario_corpus) !! 1 = Some 3
  ∧ stored_tf_sum (build_index new_index scenario_corpus) 1 = 3.
Proof.
  apply (proj2 (proj2 (build_index_invariants scenario_corpus))
           1 (text_doc "cat cat mouse")).
  reflexivity.
Defined.

(** ** Scoring over a built index *)

Section PostingLists.

Implicit Types (docs : list Document) (t : string) (d n : nat).

Lemma find_tf_tabulated (f : nat → nat) (ids : list nat) d :
  find_tf ((fun i => (i, f i)) <$> List.filter (fun i => 0 <? f i) ids) d
  = if bool_decide (d ∈ ids) then f d else 0.
Proof.
  induction ids as [|i ids IH]; [done|]. cbn [List.filter].
  assert (Hmem : bool_decide (d ∈ i :: ids)
                 = (i =? d) || bool_decide (d ∈ ids)).
  { destruct (Nat.eqb_spec i d) as [->|Hne]; simpl.
    - apply bool_decide_eq_true. apply list_elem_of_here.
    - apply bool_decide_ext. rewrite elem_of_cons.
      split; [intros [?|?]; [congruence|done]|by right]. }
  rewrite Hmem. destruct (Nat.ltb_spec 0 (f i)) as [Hpos|Hzero]; csimpl.
  - destruct (Nat.eqb_spec i d) as [->|Hne]; simpl; [done|apply IH].
  - rewrite IH. destruct (Nat.eqb_spec i d) as [->|Hne]; simpl; [|done].
    destruct (bool_decide (d ∈ ids)); lia.
Qed.

Lemma term_freq_out_of_range docs t d :
  length docs ≤ d → term_freq docs t d = 0.
Proof.
  intros Hd. unfold term_freq, doc_tokens.
  by rewrite lookup_ge_None_2.
Qed.

Lemma find_tf_postings docs t d :
  find_tf (postings_upto docs t (length docs)) d = term_freq docs t d.
Proof.
  unfold postings_upto.
  rewrite (find_tf_tabulated (term_freq docs t) (seq 0 (length docs)) d).
  case_bool_decide as Hin; [done|].
  symmetry. apply term_freq_out_of_range.
  destruct (Nat.le_gt_cases (length docs) d) as [|Hlt]; [done|].
  exfalso. apply Hin, elem_of_seq. lia.
Qed.

Lemma length_postings docs t :
  length (postings_upto docs t (length docs)) = document_frequency docs t.
Proof. unfold postings_upto, document_frequency. by rewrite length_fmap. Qed.

Lemma document_frequency_le docs t : document_frequency docs t ≤ length docs.
Proof.
  unfold document_frequency.
  etransitivity; [apply List.filter_length_le|]. by rewrite length_seq.
Qed.

Lemma term_freq_positive docs t d :
  0 < term_freq docs t d →
  d < length docs ∧ 0 < length (doc_tokens docs d)
  ∧ 0 < document_frequency docs t.
Proof.
  intros Hpos.
  assert (Hd : d < length docs).
  { destruct (Nat.le_gt_cases (length docs) d) as [Hge|]; [|done].
    rewrite (term_freq_out_of_range docs t d Hge) in Hpos. lia. }
  split; [done|]. split.
  - unfold term_freq, occurrences in Hpos.
    pose proof (List.filter_length_le (String.eqb t) (doc_tokens docs d)). lia.
  - unfold document_frequency.
    assert (Hin : In d (List.filter (fun d => 0 <? term_freq docs t d)
                          (seq 0 (length docs)))).
    { apply filter_In. split; [apply in_seq; lia|by apply Nat.ltb_lt]. }
    destruct (List.filter _ _); [done|simpl; lia].
Qed.

Lemma tokens_upto_ge docs d n :
  d < n → length (doc_tokens docs d) ≤ tokens_upto docs n.
Proof.
  induction n as [|n IH]; intros Hd; [lia|].
  rewrite tokens_upto_S. destruct (decide (d = n)) as [->|Hne]; [lia|].
  assert (d < n) by lia. etransitivity; [by apply IH|lia].
Qed.

End PostingLists.

Section Scoring.

Local Open Scope R_scope.

Implicit Types (docs : list Document) (t : string) (d : nat) (score : R).

Lemma true_div_ok (x y : R) : y ≠ 0 → true_div x y = Ok (x / y).
Proof. intros Hy. unfold true_div. by destruct (Req_dec_T y 0). Qed.

Lemma true_div_zero (x : R) : true_div x 0 = Raise ZeroDivisionError.
Proof. unfold true_div. by destruct (Req_dec_T 0 0). Qed.

Lemma math_log_ok (x : R) : 0 < x → math_log x = Ok (ln x).
Proof. intros Hx. unfold math_log. by destruct (Rlt_dec 0 x). Qed.

Lemma ln_nonneg (x : R) : 1 <= x → 0 <= ln x.
Proof.
  intros [Hlt|<-]; [|rewrite ln_1; lra].
  left. rewrite <- ln_1. apply ln_increasing; lra.
Qed.

Lemma Rdiv_ge_1 (a b : R) : 0 < b → b <= a → 1 <= a / b.
Proof.
  intros Hb Hab. unfold Rdiv.
  replace 1 with (b * / b) by (apply Rinv_r; lra).
  apply Rmult_le_compat_r; [|done]. left. by apply Rinv_0_lt_compat.
Qed.

Lemma Rdiv_nonneg (a b : R) : 0 <= a → 0 < b → 0 <= a / b.
Proof.
  intros Ha Hb. unfold Rdiv. apply Rmult_le_pos; [done|].
  left. by apply Rinv_0_lt_compat.
Qed.

Lemma INR_nonneg (n : nat) : 0 <= INR n.
Proof. apply pos_INR. Qed.

Lemma foldM_sum (step : R → string → result R) (g : string → R)
  (terms : list string) :
  (∀ score t, step score t = Ok (score + g t)) →
  ∀ score, foldM step terms score = Ok (score + sum_R (g <$> terms)).
Proof.
  intros Hstep. induction terms as [|t terms IH]; intros score; csimpl.
  - f_equal. lra.
  - rewrite Hstep. csimpl. rewrite IH. f_equal. lra.
Qed.

Lemma sum_R_nonneg (l : list R) : Forall (fun x => 0 <= x) l → 0 <= sum_R l.
Proof. induction 1; simpl; lra. Qed.

Lemma sum_R_zero (l : list R) : Forall (fun x => x = 0) l → sum_R l = 0.
Proof. induction 1; simpl; lra. Qed.

Lemma tfidf_idf_ge_1 (N df : nat) : (df ≤ N)%nat → 1 <= tfidf_idf N df.
Proof.
  intros Hle. unfold tfidf_idf. apply le_INR in Hle.
  pose proof (INR_nonneg df) as Hdf.
  assert (Hratio : 1 <= (INR N + 1) / (INR df + 1)).
  { apply Rdiv_ge_1; lra. }
  pose proof (ln_nonneg _ Hratio). lra.
Qed.

Lemma bm25_idf_pos (N df : nat) : (df ≤ N)%nat → 0 < bm25_idf N df.
Proof.
  intros Hle. unfold bm25_idf. apply le_INR in Hle.
  pose proof (INR_nonneg df) as Hdf.
  assert (0 < (INR N - INR df + 0.5) / (INR df + 0.5)).
  { apply Rdiv_lt_0_compat; lra. }
  rewrite <- ln_1. apply ln_increasing; lra.
Qed.

(** The mean length is positive as soon as one document has a token. *)
Lemma mean_doc_length_pos docs d :
  (0 < length (doc_tokens docs d))%nat → 0 < mean_doc_length docs.
Proof.
  intros Hpos. unfold mean_doc_length.
  assert (Hd : (d < length docs)%nat).
  { destruct (Nat.le_gt_cases (length docs) d) as [Hge|]; [|done].
    unfold doc_tokens in Hpos. rewrite lookup_ge_None_2 in Hpos by done.
    simpl in Hpos. lia. }
  pose proof (tokens_upto_ge docs d (length docs) Hd).
  destruct (Nat.ltb_spec 0 (length docs)); [|lia].
  apply Rdiv_lt_0_compat; apply lt_0_INR; lia.
Qed.

Lemma mean_doc_length_nonneg docs : 0 <= mean_doc_length docs.
Proof.
  unfold mean_doc_length. destruct (Nat.ltb_spec 0 (length docs)); [|lra].
  apply Rdiv_nonneg; [apply INR_nonneg|]. by apply lt_0_INR.
Qed.

(** The denominator of the BM25 fraction is positive for a matching term. *)
Lemma bm25_denominator_pos (k1 b r : R) (tf : nat) :
  0 <= k1 → 0 <= b <= 1 → 0 <= r → (0 < tf)%nat →
  0 < INR tf + k1 * (1 - b + b * r).
Proof.
  intros Hk1 [Hb0 Hb1] Hr Htf. apply lt_0_INR in Htf.
  assert (0 <= b * r) by (by apply Rmult_le_pos).
  assert (0 <= k1 * (1 - b + b * r)) by (apply Rmult_le_pos; lra).
  lra.
Qed.

Lemma bm25_contribution_nonneg (k1 b idf doc_len avgdl : R) (tf : nat) :
  0 <= k1 → 0 <= b <= 1 → 0 <= idf → 0 <= doc_len → 0 <= avgdl →
  0 <= bm25_contribution k1 b idf doc_len avgdl tf.
Proof.
  intros Hk1 Hb Hidf Hlen Havg. unfold bm25_contribution.
  destruct tf as [|tf].
  - simpl. unfold Rdiv. rewrite !Rmult_0_l, Rmult_0_r. lra.
  - assert (Hr : 0 <= doc_len / avgdl).
    { destruct Havg as [Hpos|<-].
      - by apply Rdiv_nonneg.
      - unfold Rdiv. rewrite Rinv_0. lra. }
    pose proof (bm25_denominator_pos k1 b _ (S tf) Hk1 Hb Hr ltac:(lia)).
    apply Rmult_le_pos; [done|].
    apply Rdiv_nonneg; [|done].
    apply Rmult_le_pos; [apply INR_nonneg|lra].
Qed.

Lemma tfidf_step_built docs d score t :
  tfidf_step (build_index new_index docs) d score t
  = Ok (score + tfidf_term docs d t).
Proof.
  destruct (build_index_fields docs) as (Hpost & _ & _ & Hnum & _).
  cbv zeta in *. unfold tfidf_step, tfidf_term, tfidf_contribution.
  rewrite Hpost, length_postings, Hnum, find_tf_postings.
  pose proof (document_frequency_le docs t) as Hdf.
  set (df := document_frequency docs t) in *.
  set (tf := term_freq docs t d).
  rewrite !plus_INR, INR_1.
  destruct (Nat.eqb_spec df 0) as [Hz|Hnz].
  - rewrite Hz. simpl. f_equal. lra.
  - assert (Hdfpos : (0 <? df)%nat = true) by (apply Nat.ltb_lt; lia).
    rewrite Hdfpos. cbn [andb].
    pose proof (INR_nonneg df). pose proof (INR_nonneg tf).
    apply le_INR in Hdf.
    rewrite true_div_ok by lra. csimpl.
    rewrite (math_log_ok (_ / _)) by (apply Rdiv_lt_0_compat; lra). csimpl.
    destruct (0 <? tf)%nat; [|f_equal; lra].
    rewrite math_log_ok by lra. done.
Qed.

Lemma tfidf_score_document docs (terms : list string) d :
  score_document TFIDFRetrieval (build_index new_index docs) terms d
  = Ok (tfidf_score docs terms d).
Proof.
  simpl. rewrite (foldM_sum _ (tfidf_term docs d)).
  - unfold tfidf_score. f_equal. lra.
  - intros. apply tfidf_step_built.
Qed.

Lemma bm25_step_built (k1 b : R) docs d score t :
  0 <= k1 → 0 <= b <= 1 →
  bm25_step k1 b (build_index new_index docs) d score t
  = Ok (score + bm25_term k1 b docs d t).
Proof.
  intros Hk1 Hb.
  destruct (build_index_fields docs) as (Hpost & Hlen & _ & Hnum & Havg & _).
  cbv zeta in *. unfold bm25_step, bm25_term.
  rewrite Hpost, length_postings, Hnum, find_tf_postings, Hlen, Havg.
  fold (mean_doc_length docs).
  pose proof (document_frequency_le docs t) as Hdf.
  pose proof (term_freq_positive docs t d) as Htf.
  set (df := document_frequency docs t) in *.
  set (tf := term_freq docs t d) in *.
  rewrite minus_IZR, <- !INR_IZR_INZ.
  destruct (Nat.eqb_spec df 0) as [Hz|Hnz].
  - rewrite Hz. simpl. f_equal. lra.
  - assert (Hdfpos : (0 <? df)%nat = true) by (apply Nat.ltb_lt; lia).
    rewrite Hdfpos. cbn [andb].
    pose proof (INR_nonneg df). apply le_INR in Hdf.
    assert (Hq : 0 < (INR (length docs) - INR df + 0.5) / (INR df + 0.5)).
    { apply Rdiv_lt_0_compat; lra. }
    rewrite (true_div_ok _ (INR df + 0.5)) by lra. csimpl.
    rewrite math_log_ok by lra. csimpl.
    destruct (Nat.ltb_spec 0 tf) as [Hpos|Hzero]; [|f_equal; lra].
    destruct (Htf Hpos) as (Hd & Htoks & _).
    rewrite decide_True by done. simpl.
    pose proof (mean_doc_length_pos docs d Htoks) as Havgpos.
    rewrite true_div_ok by lra. csimpl.
    assert (Hr : 0 <= INR (length (doc_tokens docs d)) / mean_doc_length docs).
    { apply Rdiv_nonneg; [apply INR_nonneg|done]. }
    pose proof (bm25_denominator_pos k1 b _ tf Hk1 Hb Hr Hpos).
    rewrite true_div_ok by lra. done.
Qed.

Lemma bm25_score_document (k1 b : R) docs (terms : list string) d :
  0 <= k1 → 0 <= b <= 1 →
  score_document (BM25Retrieval k1 b) (build_index new_index docs) terms d
  = Ok (bm25_score k1 b docs terms d).
Proof.
  intros Hk1 Hb. simpl. rewrite (foldM_sum _ (bm25_term k1 b docs d)).
  - unfold bm25_score. f_equal. lra.
  - intros. by apply bm25_step_built.
Qed.

Lemma default_parameters : 0 <= 1.5 ∧ 0 <= 0.75 <= 1.
Proof. lra. Qed.

(** The models a system registers never raise on its index. *)
Lemma registered_score_document (model : RetrievalModel) docs
  (terms : list string) d :
  model = TFIDFRetrieval ∨ model = BM25_default →
  score_document model (build_index new_index docs) terms d
  = Ok (model_score model docs terms d).
Proof.
  intros [->| ->].
  - apply tfidf_score_document.
  - apply bm25_score_document; apply default_parameters.
Qed.

Lemma tfidf_term_nonneg docs d t : 0 <= tfidf_term docs d t.
Proof.
  unfold tfidf_term, tfidf_contribution. destruct (_ && _); [|lra].
  apply Rmult_le_pos.
  - apply ln_nonneg. pose proof (INR_nonneg (term_freq docs t d)). lra.
  - pose proof (tfidf_idf_ge_1 _ _ (document_frequency_le docs t)). lra.
Qed.

Lemma bm25_term_nonneg (k1 b : R) docs d t :
  0 <= k1 → 0 <= b <= 1 → 0 <= bm25_term k1 b docs d t.
Proof.
  intros Hk1 Hb. unfold bm25_term. destruct (_ && _); [|lra].
  apply bm25_contribution_nonneg; try done.
  - left. apply bm25_idf_pos, document_frequency_le.
  - apply INR_nonneg.
  - apply mean_doc_length_nonneg.
Qed.

Lemma term_unmatched docs d t :
  term_freq docs t d = 0%nat →
  tfidf_term docs d t = 0 ∧ ∀ k1 b, bm25_term k1 b docs d t = 0.
Proof.
  intros Hz. unfold tfidf_term, bm25_term. rewrite Hz. simpl.
  rewrite andb_false_r. done.
Qed.

End Scoring.

Section ScoreFacts.

Local Open Scope R_scope.

Implicit Types (docs : list Document) (t : string) (d : nat).

Lemma sum_R_filter (g : string → R) (keep : string → bool) (l : list string) :
  (∀ t, keep t = false → g t = 0) →
  sum_R (g <$> List.filter keep l) = sum_R (g <$> l).
Proof.
  intros Hdrop. induction l as [|t l IH]; [done|]. cbn [List.filter].
  destruct (keep t) eqn:Hk; csimpl; rewrite IH; [done|].
  rewrite (Hdrop t Hk). lra.
Qed.

Lemma get_doc_freq_built docs t :
  get_doc_freq (build_index new_index docs) t = document_frequency docs t.
Proof.
  destruct (build_index_fields docs) as (Hpost & _).
  change (get_doc_freq (build_index new_index docs) t)
    with (length (get_postings (build_index new_index docs) t)).
  cbv zeta in Hpost. by rewrite Hpost, length_postings.
Qed.

Lemma vocabulary_built docs t :
  t ∈ vocabulary (build_index new_index docs)
  ↔ (0 < document_frequency docs t)%nat.
Proof.
  destruct (build_index_fields docs)
    as (Hpost & _ & _ & _ & _ & _ & _ & Hvoc).
  cbv zeta in *. rewrite Hvoc, <- length_postings, Hpost.
  destruct (postings_upto docs t (length docs)); simpl; split;
    intros; (done || lia).
Qed.

(** Without a token in any document no term has a posting. *)
Lemma no_tokens_no_postings docs t :
  mean_doc_length docs = 0 → document_frequency docs t = 0%nat.
Proof.
  intros Hmean. unfold document_frequency.
  destruct (List.filter _ _) as [|d ds] eqn:Hf; [done|]. exfalso.
  assert (Hin : In d (List.filter (fun d => (0 <? term_freq docs t d)%nat)
                        (seq 0 (length docs)))).
  { rewrite Hf. by left. }
  apply filter_In in Hin as [_ Hpos]. apply Nat.ltb_lt in Hpos.
  destruct (term_freq_positive docs t d Hpos) as (_ & Htoks & _).
  pose proof (mean_doc_length_pos docs d Htoks). lra.
Qed.

Lemma bm25_step_unindexed (k1 b : R) (idx : InvertedIndex) d score t :
  get_postings idx t = [] → bm25_step k1 b idx d score t = Ok score.
Proof. intros Hnil. unfold bm25_step. by rewrite Hnil. Qed.

Lemma foldM_skip (step : R → string → result R) (terms : list string) score :
  (∀ s t, step s t = Ok s) → foldM step terms score = Ok score.
Proof.
  intros Hskip. induction terms as [|t terms IH]; [done|].
  csimpl. rewrite Hskip. csimpl. apply IH.
Qed.

(** For a matching term the loops add the contribution formulas. *)
Lemma tfidf_term_matching docs d t :
  (0 < term_freq docs t d)%nat →
  tfidf_term docs d t
  = tfidf_contribution (tfidf_idf (length docs) (document_frequency docs t))
      (term_freq docs t d).
Proof.
  intros Htf. destruct (term_freq_positive docs t d Htf) as (_ & _ & Hdf).
  unfold tfidf_term.
  by rewrite (proj2 (Nat.ltb_lt _ _) Htf), (proj2 (Nat.ltb_lt _ _) Hdf).
Qed.

Lemma bm25_term_matching (k1 b : R) docs d t :
  (0 < term_freq docs t d)%nat →
  bm25_term k1 b docs d t
  = bm25_contribution k1 b (bm25_idf (length docs) (document_frequency docs t))
      (INR (length (doc_tokens docs d))) (mean_doc_length docs)
      (term_freq docs t d).
Proof.
  intros Htf. destruct (term_freq_positive docs t d Htf) as (_ & _ & Hdf).
  unfold bm25_term.
  by rewrite (proj2 (Nat.ltb_lt _ _) Htf), (proj2 (Nat.ltb_lt _ _) Hdf).
Qed.

Lemma Rdiv_le_cross (x y z w : R) :
  0 < y → 0 < w → x * w <= z * y → x / y <= z / w.
Proof.
  intros Hy Hw Hcross.
  apply (Rmult_le_reg_r (y * w)); [by apply Rmult_lt_0_compat|].
  replace (x / y * (y * w)) with (x * w) by (field; lra).
  replace (z / w * (y * w)) with (z * y) by (field; lra).
  done.
Qed.



End ScoreFacts.

(** ** The retrieval models on a built index *)

(** C3: on a built index the TF-IDF score of a document is the sum, over the
    query terms whose document frequency [df] and whose term frequency [tf]
    in the document are positive, of [ln(1+tf) * (ln((N+1)/(df+1)) + 1)]
    with [N = total_docs]; [df] and [tf] are those of the batch, and the
    query terms outside the vocabulary can be dropped without changing the
    score. *)
Theorem tfidf_score_formula (docs : list Document) (query_terms : list string)
  (doc_id : nat) :
  let idx := build_index new_index docs in
  let N := total_docs idx in
  score_document TFIDFRetrieval idx query_terms doc_id
  = Ok (sum_R ((fun term =>
                  let df := get_doc_freq idx term in
                  let tf := find_tf (get_postings idx term) doc_id in
                  if (0 <? df) && (0 <? tf)
                  then (ln (1 + INR tf)
                        * (ln ((INR N + 1) / (INR df + 1)) + 1))%R
                  else 0%R) <$> query_terms))
  ∧ (∀ term, get_doc_freq idx term = document_frequency docs term
             ∧ find_tf (get_postings idx term) doc_id
               = term_freq docs term doc_id)
  ∧ score_document TFIDFRetrieval idx
      (List.filter (fun term => bool_decide (term ∈ vocabulary idx)) query_terms)
      doc_id
    = score_document TFIDFRetrieval idx query_terms doc_id.
Proof.
  destruct (build_index_fields docs) as (Hpost & _ & _ & Hnum & _).
  cbv zeta in *. split_and!.
  - rewrite tfidf_score_document. unfold tfidf_score. do 2 f_equal.
    apply list_fmap_ext. intros _ term _.
    rewrite get_doc_freq_built, Hnum, Hpost, find_tf_postings. done.
  - intros term. by rewrite get_doc_freq_built, Hpost, find_tf_postings.
  - rewrite !tfidf_score_document. f_equal. unfold tfidf_score.
    apply sum_R_filter. intros term Hout.
    apply bool_decide_eq_false in Hout. rewrite vocabulary_built in Hout.
    unfold tfidf_term.
    replace (document_frequency docs term) with 0 by lia. done.
Qed.

(** C4: on a built index the BM25 model with the default parameters never
    raises, and when [avg_doc_length] is 0 (an empty batch, or documents
    without tokens) the score is 0 whatever the parameters: no posting
    exists, so the division by [avgdl] is never reached. *)
Theorem bm25_never_divides_by_zero (docs : list Document)
  (query_terms : list string) (doc_id : nat) :
  let idx := build_index new_index docs in
  (∃ score, score_document BM25_default idx query_terms doc_id = Ok score)
  ∧ (avg_doc_length idx = 0%R →
     ∀ k1 b, score_document (BM25Retrieval k1 b) idx query_terms doc_id
             = Ok 0%R).
Proof.
  destruct (build_index_fields docs) as (Hpost & _ & _ & _ & Havg & _).
  cbv zeta in *. split.
  - eexists. apply bm25_score_document; apply default_parameters.
  - intros Hzero k1 b. simpl. apply foldM_skip. intros s t.
    apply bm25_step_unindexed. rewrite Hpost.
    apply length_zero_iff_nil. rewrite length_postings.
    apply no_tokens_no_postings. by rewrite <- Hzero, Havg.
Qed.

Lemma bm25_never_divides_by_zero_witness :
  score_document (BM25Retrieval 1.5 0.75)
    (build_index new_index [text_doc "a b"]) ["cat"] 0
  = Ok 0%R.
Proof.
  apply (proj2 (bm25_never_divides_by_zero [text_doc "a b"] ["cat"] 0)).
  simpl. unfold Rdiv. apply Rmult_0_l.
Defined.

(** The index object matters: [build_index] run a second time on the same
    object keeps the old postings, which is outside the build-once life cycle;
    after a rebuild over an empty batch the division by [avgdl] is reached
    with [avgdl = 0]. *)
Remark rebuilt_index_divides_by_zero :
  score_document BM25_default
    (build_index (build_index new_index scenario_corpus) []) ["cat"] 0
  = Raise ZeroDivisionError.
Proof.
  destruct (build_index_fields scenario_corpus) as (Hpost & Hlen & _).
  cbv zeta in *. rewrite build_index_nil.
  generalize dependent (build_index new_index scenario_corpus).
  intros idx Hpost Hlen.
  cbn [score_document BM25_default foldM]. unfold bm25_step.
  cbn [total_docs avg_doc_length doc_lengths].
  change (get_postings (mkInvertedIndex _ _ _ _ _ _) "cat")
    with (get_postings idx "cat").
  rewrite Hpost, Hlen.
  replace (postings_upto scenario_corpus "cat" (length scenario_corpus))
    with [(0, 1); (1, 2)] by (vm_compute; reflexivity).
  replace (length (doc_tokens scenario_corpus 0)) with 2
    by (vm_compute; reflexivity).
  cbn [length Nat.eqb find_tf Nat.ltb Nat.leb from_option].
  rewrite decide_True by (simpl; lia). cbn [from_option].
  rewrite (true_div_ok _ (INR 2 + 0.5)) by (simpl; lra). csimpl.
  change (Z.of_nat 0 - Z.of_nat 2)%Z with (-2)%Z.
  rewrite math_log_ok by lra. csimpl.
  rewrite true_div_zero. reflexivity.
Qed.

(** C5: on a built index both models return a score, the score is not
    negative, and it is 0 when the document has term frequency 0 for every
    query term. *)
Theorem scores_nonnegative (docs : list Document) (query_terms : list string)
  (doc_id : nat) :
  let idx := build_index new_index docs in
  ∃ s_tfidf s_bm25,
    score_document TFIDFRetrieval idx query_terms doc_id = Ok s_tfidf
    ∧ score_document BM25_default idx query_terms doc_id = Ok s_bm25
    ∧ (0 <= s_tfidf)%R ∧ (0 <= s_bm25)%R
    ∧ ((∀ term, term ∈ query_terms →
          find_tf (get_postings idx term) doc_id = 0) →
       s_tfidf = 0%R ∧ s_bm25 = 0%R).
Proof.
  destruct (build_index_fields docs) as (Hpost & _).
  destruct default_parameters as [Hk1 Hb]. cbv zeta in *.
  exists (tfidf_score docs query_terms doc_id),
         (bm25_score 1.5 0.75 docs query_terms doc_id).
  split_and!.
  - apply tfidf_score_document.
  - by apply bm25_score_document.
  - apply sum_R_nonneg, Forall_fmap, Forall_forall. intros t _.
    apply tfidf_term_nonneg.
  - apply sum_R_nonneg, Forall_fmap, Forall_forall. intros t _.
    by apply bm25_term_nonneg.
  - intros Hzero.
    assert (Hterm : ∀ t, t ∈ query_terms → term_freq docs t doc_id = 0).
    { intros t Hin. rewrite <- find_tf_postings, <- Hpost. by apply Hzero. }
    split; apply sum_R_zero, Forall_fmap, Forall_forall; intros t Hin;
      by apply term_unmatched, Hterm.
Qed.

Lemma scores_nonnegative_witness :
  ∃ s_tfidf s_bm25,
    score_document TFIDFRetrieval (build_index new_index scenario_corpus)
      ["cat"] 2 = Ok s_tfidf
    ∧ score_document BM25_default (build_index new_index scenario_corpus)
        ["cat"] 2 = Ok s_bm25
    ∧ s_tfidf = 0%R ∧ s_bm25 = 0%R.
Proof.
  destruct (scores_nonnegative scenario_corpus ["cat"] 2)
    as (s1 & s2 & H1 & H2 & _ & _ & Hzero).
  exists s1, s2. split; [exact H1|]. split; [exact H2|].
  apply Hzero. intros term Hin. apply list_elem_of_singleton in Hin.
  subst term. vm_compute. reflexivity.
Defined.



(** ** Sorting and truncation *)

Section Ranking.

Implicit Types (x y : nat * R) (l : list (nat * R)).

Lemma insert_desc_Permutation x l : insert_desc x l ≡ₚ x :: l.
Proof.
  induction l as [|y l IH]; simpl; [done|].
  destruct (Rlt_dec (snd x) (snd y)); [|done].
  rewrite IH. apply Permutation_swap.
Qed.

Lemma sort_desc_Permutation l : sort_desc l ≡ₚ l.
Proof.
  induction l as [|x l IH]; simpl; [done|].
  by rewrite insert_desc_Permutation, IH.
Qed.

Lemma ranks_before_trans x y z :
  ranks_before x y → ranks_before y z → ranks_before x z.
Proof.
  unfold ranks_before. intros [Hxy|[Hxy Hid]] [Hyz|[Hyz Hid']].
  - left. lra.
  - left. lra.
  - left. lra.
  - right. split; [congruence|lia].
Qed.

(** An entry with the smallest id goes in front of its equals: the sort is
    stable. *)
Lemma insert_desc_sorted x l :
  Forall (fun y => fst x < fst y) l →
  StronglySorted ranks_before l →
  StronglySorted ranks_before (insert_desc x l).
Proof.
  induction l as [|y l IH]; intros Hids Hsorted; simpl.
  - repeat constructor.
  - apply Forall_cons in Hids as [Hxy Hids].
    apply StronglySorted_inv in Hsorted as [Hsorted Hy].
    destruct (Rlt_dec (snd x) (snd y)) as [Hlt|Hge].
    + constructor; [by apply IH|].
      rewrite insert_desc_Permutation. constructor; [by left|done].
    + assert (Hx : ranks_before x y).
      { unfold ranks_before. destruct (Rtotal_order (snd y) (snd x))
          as [?|[?|?]]; [by left|by right|lra]. }
      constructor; [by constructor|]. constructor; [done|].
      eapply Forall_impl; [exact Hy|]. intros z Hz.
      by apply (ranks_before_trans x y z).
Qed.

Lemma sort_desc_sorted l :
  StronglySorted (fun x y => fst x < fst y) l →
  StronglySorted ranks_before (sort_desc l).
Proof.
  induction 1 as [|x l Hsorted IH Hx]; simpl; [constructor|].
  apply insert_desc_sorted; [|done]. by rewrite sort_desc_Permutation.
Qed.

Lemma positive_scores_elem_of (score : nat → R) (ids : list nat) d s :
  (d, s) ∈ positive_scores score ids ↔ d ∈ ids ∧ s = score d ∧ (0 < s)%R.
Proof.
  induction ids as [|i ids IH]; simpl.
  - split; [intros Hin; by apply not_elem_of_nil in Hin|].
    intros [Hin _]. by apply not_elem_of_nil in Hin.
  - destruct (Rlt_dec 0 (score i)) as [Hpos|Hneg].
    + rewrite !elem_of_cons, IH. split.
      * intros [Heq|(? & ? & ?)]; [|by auto].
        injection Heq as -> ->. auto.
      * intros ([->|Hin] & -> & Hs); [by left|by right].
    + rewrite IH, elem_of_cons. split; [by intros (? & ? & ?); auto|].
      intros ([->|Hin] & -> & Hs); [lra|done].
Qed.

Lemma positive_scores_ids (score : nat → R) (ids : list nat) (P : nat → Prop) :
  Forall P ids → Forall (fun x => P (fst x)) (positive_scores score ids).
Proof.
  induction 1 as [|i ids Hi Hids IH]; simpl; [constructor|].
  destruct (Rlt_dec 0 (score i)); [by constructor|done].
Qed.

Lemma positive_scores_ascending (score : nat → R) (ids : list nat) :
  StronglySorted lt ids →
  StronglySorted (fun x y => fst x < fst y) (positive_scores score ids).
Proof.
  induction 1 as [|i ids Hsorted IH Hi]; simpl; [constructor|].
  destruct (Rlt_dec 0 (score i)); [|done].
  constructor; [done|]. by apply (positive_scores_ids score ids (lt i)).
Qed.

Lemma seq_ascending (start len : nat) : StronglySorted lt (seq start len).
Proof.
  revert start. induction len as [|len IH]; intros start; simpl; constructor.
  - apply IH.
  - apply Forall_forall. intros j Hj. apply elem_of_seq in Hj. lia.
Qed.

Lemma ranking_sorted (model : RetrievalModel) docs (terms : list string) :
  StronglySorted ranks_before (ranking model docs terms).
Proof.
  apply sort_desc_sorted, positive_scores_ascending, seq_ascending.
Qed.

Lemma ranking_elem_of (model : RetrievalModel) docs (terms : list string) d s :
  (d, s) ∈ ranking model docs terms
  ↔ d < length docs ∧ s = model_score model docs terms d ∧ (0 < s)%R.
Proof.
  unfold ranking. rewrite sort_desc_Permutation, positive_scores_elem_of.
  rewrite elem_of_seq. split; intros (? & ? & ?); split_and!; (done || lia).
Qed.

Lemma slice_to_positive {A : Type} (l : list A) (k : Z) :
  (0 < k)%Z →
  slice_to l k = take (Z.to_nat k) l ∧ (Z.of_nat (length (slice_to l k)) ≤ k)%Z.
Proof.
  intros Hk. unfold slice_to. destruct (Z.leb_spec 0 k); [|lia].
  split; [done|]. rewrite length_take. lia.
Qed.

Lemma slice_to_ids {A : Type} (P : A → Prop) (l : list A) (k : Z) :
  Forall P l → Forall P (slice_to l k).
Proof. intros Hl. unfold slice_to. destruct (0 <=? k)%Z; by apply Forall_take. Qed.

End Ranking.

(** ** Search over an indexed system *)

Section Search.

Implicit Types (docs : list Document) (sys : CLIRSystem) (d : nat).

Lemma select_registered (method : string) :
  select_model registered_models method = Ok (selected_model method).
Proof.
  unfold select_model, registered_models, selected_model.
  rewrite lookup_insert_eq. f_equal.
  destruct (decide (method = "bm25")) as [->|Hbm].
  - by rewrite lookup_insert_eq.
  - rewrite lookup_insert_ne by done.
    destruct (String.eqb_spec method "tfidf") as [->|Htf].
    + by rewrite lookup_insert_eq.
    + rewrite lookup_insert_ne by done. by rewrite lookup_empty.
Qed.

Lemma selected_registered (method : string) :
  selected_model method = TFIDFRetrieval ∨ selected_model method = BM25_default.
Proof. unfold selected_model. destruct (String.eqb method "tfidf"); auto. Qed.

Lemma scoring_loop (model : RetrievalModel) (idx : InvertedIndex)
  (terms : list string) (score : nat → R) (ids : list nat) :
  (∀ d, score_document model idx terms d = Ok (score d)) →
  ∀ acc, foldM (score_step model idx terms) ids acc
         = Ok (acc ++ positive_scores score ids).
Proof.
  intros Hscore. induction ids as [|i ids IH]; intros acc; cbn [foldM].
  - simpl. by rewrite app_nil_r.
  - assert (Hstep : score_step model idx terms acc i
                    = Ok (if Rlt_dec 0 (score i)
                          then acc ++ [(i, score i)] else acc)).
    { unfold score_step. rewrite Hscore. csimpl.
      by destruct (Rlt_dec 0 (score i)). }
    rewrite Hstep. cbn [positive_scores].
    destruct (Rlt_dec 0 (score i)); csimpl; rewrite IH; [|done].
    by rewrite <- app_assoc.
Qed.

Lemma rank_indexed docs sys (working method : string) (top_k : Z) :
  Indexed docs sys →
  rank sys working method top_k
  = Ok (slice_to (ranking (selected_model method) docs (tokenize working)) top_k).
Proof.
  intros (Hdocs & Hidx & Hmodels). unfold rank.
  rewrite Hmodels, select_registered, Hidx, Hdocs. csimpl.
  rewrite (scoring_loop _ _ _
             (model_score (selected_model method) docs (tokenize working))).
  - done.
  - intros d. apply registered_score_document, selected_registered.
Qed.

Lemma map_result_total {A B : Type} (f : A → result B) (h : A → B)
  (P : A → Prop) (l : list A) :
  (∀ x, P x → f x = Ok (h x)) → Forall P l → map_result f l = Ok (h <$> l).
Proof.
  intros Hf. induction 1 as [|x l Hx Hl IH]; [done|].
  cbn [map_result]. rewrite (Hf x Hx), IH. done.
Qed.

Lemma metadata_of_built docs d :
  d < length docs →
  metadata_of (build_index new_index docs) d = Ok (meta_at docs d).
Proof.
  intros Hd.
  destruct (build_index_fields docs) as (_ & _ & Hmeta & _).
  cbv zeta in Hmeta. unfold metadata_of, meta_at. rewrite Hmeta.
  rewrite decide_True by done.
  destruct (lookup_lt_is_Some_2 docs d Hd) as [doc Hdoc]. by rewrite Hdoc.
Qed.

Lemma ranking_ids (model : RetrievalModel) docs (terms : list string) :
  Forall (fun p => fst p < length docs) (ranking model docs terms).
Proof.
  apply Forall_forall. intros [d s] Hin.
  by apply ranking_elem_of in Hin as (? & _).
Qed.

(** The comprehensions of [search] that read [doc_metadata]. *)
Lemma with_metadata {B : Type} docs (g : nat → R → Metadata → B)
  (ranked : list (nat * R)) :
  Forall (fun p => fst p < length docs) ranked →
  map_result (fun '(doc_id, score) =>
                m ← metadata_of (build_index new_index docs) doc_id;
                Ok (g doc_id score m)) ranked
  = Ok ((fun p => g (fst p) (snd p) (meta_at docs (fst p))) <$> ranked).
Proof.
  apply map_result_total. intros [d s] Hd. simpl in *.
  by rewrite (metadata_of_built docs d Hd).
Qed.

(** A search over an indexed system returns, and what it returns and
    records is determined by the ranking. *)
Lemma search_indexed (clock : Clock) docs sys (query method : string)
  (top_k : Z) (query_lang : string) :
  Indexed docs sys →
  let working := working_query sys query query_lang in
  let ranked :=
    slice_to (ranking (selected_model method) docs (tokenize working)) top_k in
  search clock sys query method top_k query_lang
  = Ok ((fun p => (fst p, snd p, meta_at docs (fst p))) <$> ranked,
        with_record sys
          (record_of clock docs query working method query_lang ranked)).
Proof.
  intros Hsys working ranked. unfold search, with_record.
  fold (working_query sys query query_lang). fold working.
  rewrite (rank_indexed docs sys working method top_k Hsys). fold ranked.
  destruct Hsys as (Hdocs & Hidx & Hmodels). rewrite Hidx. csimpl.
  assert (Hids : Forall (fun p => fst p < length docs) ranked).
  { apply slice_to_ids, ranking_ids. }
  rewrite (with_metadata docs
             (fun d s m => mkResultEntry d s (meta_title m) (meta_url m))
             ranked Hids).
  csimpl.
  rewrite (with_metadata docs (fun d s m => (d, s, m)) ranked Hids).
  done.
Qed.

Lemma index_batch_Indexed sys docs :
  sys_index sys = new_index → Indexed docs (index_batch sys docs).
Proof. intros Hnew. unfold Indexed, index_batch. simpl. by rewrite Hnew. Qed.

Lemma scrape_and_index_Indexed (tr : option Translator) (scraped : list Document) :
  Indexed (match scraped with [] => generate_sample_data | _ => scraped end)
    (scrape_and_index (new_system tr) scraped).
Proof. unfold scrape_and_index. by apply index_batch_Indexed. Qed.

Lemma with_record_Indexed docs sys (r : SearchRecord) :
  Indexed docs sys → Indexed docs (with_record sys r).
Proof. done. Qed.

End Search.

(** ** The search contract *)

(** C1: over an indexed system, for the methods ["tfidf"] and ["bm25"] and
    [top_k > 0], [search] returns the first [top_k] entries of the list of
    exactly the document ids below [total_docs] whose model score is
    positive, ordered by descending score and, among equal scores, by
    ascending document id; so it returns at most [top_k] entries. *)
Theorem search_ranking (clock : Clock) (docs : list Document) (sys : CLIRSystem)
  (query m : string) (top_k : Z) (query_lang : string) :
  Indexed docs sys →
  m = "tfidf" ∨ m = "bm25" →
  (0 < top_k)%Z →
  ∃ model out sys' full,
    retrieval_models sys !! m = Some model
    ∧ search clock sys query m top_k query_lang = Ok (out, sys')
    ∧ id_score <$> out = take (Z.to_nat top_k) full
    ∧ (∀ d s, (d, s) ∈ full
              ↔ d < total_docs (sys_index sys)
                ∧ score_document model (sys_index sys)
                    (tokenize (working_query sys query query_lang)) d = Ok s
                ∧ (0 < s)%R)
    ∧ StronglySorted ranks_before full
    ∧ StronglySorted ranks_before (id_score <$> out)
    ∧ (Z.of_nat (length out) ≤ top_k)%Z.
Proof.
  intros Hsys Hm Hk.
  pose proof (search_indexed clock docs sys query m top_k query_lang Hsys)
    as Hsearch. cbv zeta in Hsearch.
  destruct Hsys as (Hdocs & Hidx & Hmodels).
  destruct (build_index_fields docs) as (_ & _ & _ & Hnum & _).
  cbv zeta in Hnum.
  set (terms := tokenize (working_query sys query query_lang)) in *.
  set (full := ranking (selected_model m) docs terms) in *.
  destruct (slice_to_positive full top_k Hk) as [Hslice Hlen].
  assert (Hout : id_score <$> ((fun p => (fst p, snd p, meta_at docs (fst p)))
                               <$> slice_to full top_k)
                 = take (Z.to_nat top_k) full).
  { rewrite <- list_fmap_compose, <- Hslice.
    rewrite <- (list_fmap_id (slice_to full top_k)) at 2.
    apply list_fmap_ext. by intros _ [d s] _. }
  eexists (selected_model m), _, _, full. split_and!.
  - rewrite Hmodels. unfold registered_models, selected_model.
    destruct Hm as [-> | ->]; reflexivity.
  - exact Hsearch.
  - exact Hout.
  - intros d s. unfold full. rewrite ranking_elem_of, Hidx, Hnum.
    rewrite (registered_score_document _ docs terms d (selected_registered m)).
    split; intros (? & Hs & ?); split_and!; (done || congruence).
  - apply ranking_sorted.
  - rewrite Hout.
    apply (StronglySorted_app_1_l _ _ (drop (Z.to_nat top_k) full)).
    rewrite take_drop. apply ranking_sorted.
  - by rewrite length_fmap.
Qed.

Lemma search_ranking_witness :
  ∃ model out sys' full,
    retrieval_models (index_batch (new_system None) scenario_corpus) !! "bm25"
    = Some model
    ∧ search example_clock (index_batch (new_system None) scenario_corpus)
        "cat" "bm25" 10 "en" = Ok (out, sys')
    ∧ id_score <$> out = take 10 full
    ∧ StronglySorted ranks_before full
    ∧ (Z.of_nat (length out) ≤ 10)%Z.
Proof.
  destruct (search_ranking example_clock scenario_corpus
              (index_batch (new_system None) scenario_corpus)
              "cat" "bm25" 10 "en")
    as (model & out & sys' & full & H1 & H2 & H3 & _ & H5 & _ & H7).
  - repeat split; reflexivity.
  - right. reflexivity.
  - lia.
  - exists model, out, sys', full. repeat split; assumption.
Defined.

(** C10: over an indexed system a method string that is neither ["tfidf"]
    nor ["bm25"] does not make [search] raise: the call ranks with the BM25
    model and returns the list the method ["bm25"] returns, and the record
    it appends stores the caller's method string. *)
Theorem unknown_method_uses_bm25 (clock : Clock) (docs : list Document)
  (sys : CLIRSystem) (query m : string) (top_k : Z) (query_lang : string) :
  Indexed docs sys →
  m ≠ "tfidf" → m ≠ "bm25" →
  ∃ out record record_bm25,
    search clock sys query m top_k query_lang = Ok (out, with_record sys record)
    ∧ search clock sys query "bm25" top_k query_lang
      = Ok (out, with_record sys record_bm25)
    ∧ id_score <$> out
      = slice_to (ranking BM25_default docs
                    (tokenize (working_query sys query query_lang))) top_k
    ∧ method record = m
    ∧ method record_bm25 = "bm25"
    ∧ results record = results record_bm25.
Proof.
  intros Hsys Htfidf Hbm25.
  pose proof (search_indexed clock docs sys query m top_k query_lang Hsys) as Hm.
  pose proof (search_indexed clock docs sys query "bm25" top_k query_lang Hsys)
    as Hb.
  cbv zeta in Hm, Hb.
  assert (Hmodel : selected_model m = BM25_default).
  { unfold selected_model. by rewrite (proj2 (String.eqb_neq _ _) Htfidf). }
  rewrite Hmodel in Hm. change (selected_model "bm25") with BM25_default in Hb.
  eexists _, _, _. split_and!; [exact Hm|exact Hb| |done|done|done].
  rewrite <- list_fmap_compose.
  rewrite <- (list_fmap_id (slice_to _ top_k)) at 2.
  apply list_fmap_ext. by intros _ [d s] _.
Qed.

Lemma unknown_method_uses_bm25_witness :
  ∃ out record record_bm25,
    search example_clock (index_batch (new_system None) scenario_corpus)
      "cat" "cosine" 10 "en"
    = Ok (out, with_record (index_batch (new_system None) scenario_corpus) record)
    ∧ search example_clock (index_batch (new_system None) scenario_corpus)
        "cat" "bm25" 10 "en"
      = Ok (out, with_record (index_batch (new_system None) scenario_corpus)
                   record_bm25)
    ∧ method record = "cosine".
Proof.
  destruct (unknown_method_uses_bm25 example_clock scenario_corpus
              (index_batch (new_system None) scenario_corpus)
              "cat" "cosine" 10 "en")
    as (out & r & r' & H1 & H2 & _ & H4 & _).
  - repeat split; reflexivity.
  - discriminate.
  - discriminate.
  - exists out, r, r'. repeat split; assumption.
Defined.

(** C9: over an indexed system, when no translator is configured or the
    translation call raises, a search with a query language other than
    ['en'] does not fail: it returns what the same search in ['en'] returns,
    that is, it ranks for the original query text, and the record it appends
    has no translated query. *)
Theorem translation_failure_keeps_query (clock : Clock) (docs : list Document)
  (sys : CLIRSystem) (q m : string) (top_k : Z) (query_lang : string) :
  Indexed docs sys →
  query_lang ≠ "en" →
  (translator sys = None
   ∨ ∃ tr e, translator sys = Some tr ∧ tr q query_lang "en" = Raise e) →
  ∃ out record record_en,
    search clock sys q m top_k query_lang = Ok (out, with_record sys record)
    ∧ id_score <$> out
      = slice_to (ranking (selected_model m) docs (tokenize q)) top_k
    ∧ query record = q
    ∧ translated_query record = None
    ∧ search clock sys q m top_k "en" = Ok (out, with_record sys record_en)
    ∧ results record = results record_en.
Proof.
  intros Hsys Hlang Htr.
  pose proof (search_indexed clock docs sys q m top_k query_lang Hsys) as Hq.
  pose proof (search_indexed clock docs sys q m top_k "en" Hsys) as Hen.
  cbv zeta in Hq, Hen.
  assert (Hwork : working_query sys q query_lang = q).
  { unfold working_query, translate_query.
    rewrite bool_decide_eq_true_2 by done.
    destruct Htr as [-> | (tr & e & -> & ->)]; done. }
  rewrite Hwork in Hq. change (working_query sys q "en") with q in Hen.
  eexists _, _, _. split_and!; [exact Hq| |done| |exact Hen|done].
  - rewrite <- list_fmap_compose.
    rewrite <- (list_fmap_id (slice_to _ top_k)) at 2.
    apply list_fmap_ext. by intros _ [d s] _.
  - simpl. rewrite bool_decide_eq_false_2; [done|]. by intros Hne.
Qed.

Lemma translation_failure_keeps_query_witness :
  ∃ out record,
    search example_clock
      (index_batch (new_system (Some failing_translator)) scenario_corpus)
      "cat" "bm25" 10 "bn"
    = Ok (out,
          with_record
            (index_batch (new_system (Some failing_translator)) scenario_corpus)
            record)
    ∧ translated_query record = None.
Proof.
  destruct (translation_failure_keeps_query example_clock scenario_corpus
              (index_batch (new_system (Some failing_translator))
                 scenario_corpus)
              "cat" "bm25" 10 "bn")
    as (out & r & r' & H1 & _ & _ & H4 & _).
  - repeat split; reflexivity.
  - discriminate.
  - right. exists failing_translator, TranslationError. split; reflexivity.
  - exists out, r. split; assumption.
Defined.

(** ** Scenario A *)

Section ScenarioA.

Local Open Scope R_scope.

Lemma ln_8_5_pos : 0 < ln (8 / 5).
Proof. rewrite <- ln_1. apply ln_increasing; lra. Qed.

Lemma scenario_mean : mean_doc_length scenario_corpus = 8 / 3.
Proof.
  unfold mean_doc_length.
  change (length scenario_corpus) with 3%nat.
  replace (tokens_upto scenario_corpus 3) with 8%nat by (vm_compute; reflexivity).
  simpl. lra.
Qed.

Lemma scenario_idf : bm25_idf 3 2 = ln (8 / 5).
Proof. unfold bm25_idf. simpl. f_equal. lra. Qed.

Lemma scenario_bm25_0 :
  bm25_score 1.5 0.75 scenario_corpus ["cat"] 0 = scenario_score_0.
Proof.
  unfold bm25_score, bm25_term, scenario_score_0. csimpl.
  replace (document_frequency scenario_corpus "cat") with 2%nat
    by (vm_compute; reflexivity).
  replace (term_freq scenario_corpus "cat" 0) with 1%nat
    by (vm_compute; reflexivity).
  replace (length (doc_tokens scenario_corpus 0)) with 2%nat
    by (vm_compute; reflexivity).
  change (length scenario_corpus) with 3%nat.
  rewrite scenario_mean, scenario_idf. unfold bm25_contribution. simpl.
  rewrite Rplus_0_r. f_equal. lra.
Qed.

Lemma scenario_bm25_1 :
  bm25_score 1.5 0.75 scenario_corpus ["cat"] 1 = scenario_score_1.
Proof.
  unfold bm25_score, bm25_term, scenario_score_1. csimpl.
  replace (document_frequency scenario_corpus "cat") with 2%nat
    by (vm_compute; reflexivity).
  replace (term_freq scenario_corpus "cat" 1) with 2%nat
    by (vm_compute; reflexivity).
  replace (length (doc_tokens scenario_corpus 1)) with 3%nat
    by (vm_compute; reflexivity).
  change (length scenario_corpus) with 3%nat.
  rewrite scenario_mean, scenario_idf. unfold bm25_contribution. simpl.
  rewrite Rplus_0_r. f_equal. lra.
Qed.

Lemma scenario_bm25_2 : bm25_score 1.5 0.75 scenario_corpus ["cat"] 2 = 0.
Proof.
  unfold bm25_score. csimpl.
  destruct (term_unmatched scenario_corpus 2 "cat") as [_ Hz];
    [vm_compute; reflexivity|].
  rewrite Hz. lra.
Qed.

Lemma scenario_order : 0 < scenario_score_0 < scenario_score_1.
Proof.
  pose proof ln_8_5_pos as Hln. unfold scenario_score_0, scenario_score_1.
  split.
  - apply Rmult_lt_0_compat; lra.
  - apply Rmult_lt_compat_l; lra.
Qed.

Lemma scenario_ranking :
  ranking BM25_default scenario_corpus ["cat"]
  = [(1%nat, scenario_score_1); (0%nat, scenario_score_0)].
Proof.
  destruct scenario_order as [H0 H01].
  unfold ranking. change (length scenario_corpus) with 3%nat.
  cbn [seq positive_scores model_score BM25_default].
  rewrite scenario_bm25_0, scenario_bm25_1, scenario_bm25_2.
  destruct (Rlt_dec 0 scenario_score_0); [|lra].
  destruct (Rlt_dec 0 scenario_score_1); [|lra].
  destruct (Rlt_dec 0 0); [lra|].
  cbn [sort_desc insert_desc snd].
  destruct (Rlt_dec scenario_score_0 scenario_score_1); [done|lra].
Qed.

End ScenarioA.

(** C8: for the corpus ["cat dog"], ["cat cat mouse"], ["dog mouse mouse"]
    (ids 0, 1, 2) and the query ["cat"], BM25 with the default parameters
    scores document 1 strictly above document 0 and document 2 exactly 0; a
    search never returns document 2, and with [top_k = 10] it returns
    document 1 and then document 0. *)
Theorem scenario_A (clock : Clock) (tr : option Translator) :
  let sys := index_batch (new_system tr) scenario_corpus in
  let s0 := scenario_score_0 in
  let s1 := scenario_score_1 in
  score_document BM25_default (sys_index sys) (tokenize "cat") 0 = Ok s0
  ∧ score_document BM25_default (sys_index sys) (tokenize "cat") 1 = Ok s1
  ∧ score_document BM25_default (sys_index sys) (tokenize "cat") 2 = Ok 0%R
  ∧ (0 < s0 < s1)%R
  ∧ (∀ top_k, ∃ out sys',
       search clock sys "cat" "bm25" top_k "en" = Ok (out, sys')
       ∧ Forall (fun r => fst (id_score r) ≠ 2) out)
  ∧ ∃ sys',
      search clock sys "cat" "bm25" 10 "en"
      = Ok ([(1, s1, meta_at scenario_corpus 1);
             (0, s0, meta_at scenario_corpus 0)], sys').
Proof.
  cbv zeta.
  assert (Hsys : Indexed scenario_corpus
                   (index_batch (new_system tr) scenario_corpus)).
  { by apply index_batch_Indexed. }
  change (tokenize "cat") with ["cat"].
  change (sys_index (index_batch (new_system tr) scenario_corpus))
    with (build_index new_index scenario_corpus).
  destruct default_parameters as [Hk1 Hb].
  unfold BM25_default. rewrite !bm25_score_document by done.
  rewrite scenario_bm25_0, scenario_bm25_1, scenario_bm25_2.
  destruct scenario_order as [Hpos Hlt].
  split_and!; try done.
  - intros top_k. eexists _, _. split.
    + apply (search_indexed clock scenario_corpus _ "cat" "bm25" top_k "en" Hsys).
    + change (working_query (index_batch (new_system tr) scenario_corpus)
                "cat" "en") with "cat".
      change (tokenize "cat") with ["cat"].
      change (selected_model "bm25") with BM25_default.
      rewrite scenario_ranking. apply Forall_fmap, slice_to_ids.
      repeat constructor; simpl; lia.
  - eexists.
    rewrite (search_indexed clock scenario_corpus _ "cat" "bm25" 10 "en" Hsys).
    change (working_query (index_batch (new_system tr) scenario_corpus)
              "cat" "en") with "cat".
    change (tokenize "cat") with ["cat"].
    change (selected_model "bm25") with BM25_default.
    rewrite scenario_ranking. reflexivity.
Qed.

(** * Further properties of the code *)

(** ** Tokenizer: composition and fixed points *)

Section TokenizerMore.

Lemma str_map_app (f : ascii → ascii) (a b : string) :
  str_map f (a +:+ b) = str_map f a +:+ str_map f b.
Proof. induction a as [|c a IH]; simpl; [done|]. by rewrite IH. Qed.

Lemma split_from_separator (a b : string) (c : ascii) : ∀ cur,
  Char.isspace c = true →
  split_from cur (a +:+ String c b) = split_from cur a ++ split_from [] b.
Proof.
  induction a as [|x a IH]; intros cur Hc; simpl.
  - by rewrite Hc.
  - destruct (Char.isspace x).
    + by rewrite IH, app_assoc.
    + by apply IH.
Qed.

Lemma prepared_text (s : string) :
  re_sub_class nonword_nonspace (lower s) = str_map prepared s.
Proof.
  unfold re_sub_class, lower. induction s as [|c s IH]; simpl; [done|].
  by rewrite IH.
Qed.

Lemma tokenize_separated (a b : string) :
  tokenize (a +:+ " " +:+ b) = tokenize a ++ tokenize b.
Proof.
  unfold tokenize, split. rewrite !prepared_text, !str_map_app.
  change (str_map prepared " " +:+ str_map prepared b)
    with (String " " (str_map prepared b)).
  rewrite split_from_separator by reflexivity.
  by rewrite List.filter_app.
Qed.

Lemma token_char_facts (c : ascii) :
  token_char c →
  Char.isspace c = false ∧ nonword_nonspace c = false ∧ Char.lower_char c = c.
Proof.
  unfold token_char.
  destruct c as [[] [] [] [] [] [] [] []]; vm_compute; intros [? ?];
    (done || auto).
Qed.

Lemma str_map_id (f : ascii → ascii) (s : string) :
  Forall (fun c => f c = c) (list_ascii_of_string s) → str_map f s = s.
Proof.
  induction s as [|c s IH]; simpl; [done|].
  intros [Hc Hs]%Forall_cons. by rewrite Hc, IH.
Qed.

Lemma split_from_unbroken (s : string) : ∀ cur,
  Forall (fun c => Char.isspace c = false) (list_ascii_of_string s) →
  split_from cur s = flush (rev (list_ascii_of_string s) ++ cur).
Proof.
  induction s as [|c s IH]; intros cur; simpl; [done|].
  intros [Hc Hs]%Forall_cons. rewrite Hc, IH by done.
  by rewrite <- app_assoc.
Qed.

Lemma tokenize_token (t : string) :
  2 < String.length t → Forall token_char (list_ascii_of_string t) →
  tokenize t = [t].
Proof.
  intros Hlen Hchars. unfold tokenize, lower, re_sub_class.
  assert (Hlow : str_map Char.lower_char t = t).
  { apply str_map_id. eapply Forall_impl; [exact Hchars|].
    intros c Hc. by apply token_char_facts. }
  rewrite Hlow.
  assert (Hsub : str_map (fun c => if nonword_nonspace c then " "%char else c) t
                 = t).
  { apply str_map_id. eapply Forall_impl; [exact Hchars|].
    intros c Hc. by destruct (token_char_facts c Hc) as (_ & -> & _). }
  rewrite Hsub. unfold split. rewrite split_from_unbroken.
  - rewrite app_nil_r. unfold flush.
    destruct (rev (list_ascii_of_string t)) as [|c l] eqn:Hrev.
    + apply (f_equal (@rev ascii)) in Hrev. rewrite rev_involutive in Hrev.
      destruct t; [simpl in Hlen; lia|discriminate].
    + rewrite <- Hrev, rev_involutive, string_of_list_ascii_of_string.
      simpl. by rewrite (proj2 (Nat.ltb_lt _ _) Hlen).
  - eapply Forall_impl; [exact Hchars|]. intros c Hc.
    by apply token_char_facts.
Qed.



End TokenizerMore.

(** X1: a space between two texts separates their tokens, so a document is
    indexed under the tokens of its title followed by the tokens of its
    body. *)
Theorem tokenize_title_body (a b : string) (doc : Document) :
  tokenize (a +:+ " " +:+ b) = tokenize a ++ tokenize b
  ∧ tokenize (doc_text doc) = tokenize (title doc) ++ tokenize (body doc).
Proof. split; apply tokenize_separated. Qed.

(** X2: every token [tokenize] returns is a fixed point: tokenizing it again
    gives exactly that token, so an indexed term used as a query is looked up
    unchanged. *)
Theorem tokenize_fixes_tokens (text t : string) :
  t ∈ tokenize text → tokenize t = [t].
Proof.
  intros Hin. pose proof (tokenize_tokens text) as Hall.
  rewrite Forall_forall in Hall. destruct (Hall t Hin) as [Hlen Hchars].
  by apply tokenize_token.
Qed.

Lemma tokenize_fixes_tokens_witness : tokenize "world" = ["world"].
Proof.
  apply (tokenize_fixes_tokens "Hello, World!" "world"). vm_compute.
  apply list_elem_of_further, list_elem_of_here.
Defined.


(** ** The shape of a built index *)

Section IndexShape.

Implicit Types (docs : list Document) (t : string) (d n : nat).

Lemma postings_upto_elem_of docs t n d tf :
  (d, tf) ∈ postings_upto docs t n
  ↔ d < n ∧ 0 < tf ∧ tf = term_freq docs t d.
Proof.
  unfold postings_upto. rewrite list_elem_of_fmap. split.
  - intros (i & Heq & Hin). injection Heq as -> ->.
    apply list_elem_of_In, filter_In in Hin as [Hin Hpos].
    apply in_seq in Hin. apply Nat.ltb_lt in Hpos. lia.
  - intros (Hd & Hpos & ->). exists d. split; [done|].
    apply list_elem_of_In, filter_In. split; [apply in_seq; lia|].
    by apply Nat.ltb_lt.
Qed.

Lemma filter_ascending (keep : nat → bool) (l : list nat) :
  StronglySorted lt l → StronglySorted lt (List.filter keep l).
Proof.
  induction 1 as [|x l Hl IH Hx]; simpl; [constructor|].
  destruct (keep x); [|done]. constructor; [done|].
  apply Forall_forall. intros y Hy.
  apply list_elem_of_In, filter_In in Hy as [Hy _].
  rewrite Forall_forall in Hx. by apply Hx, list_elem_of_In.
Qed.

Lemma postings_upto_ids docs t n :
  StronglySorted lt (postings_upto docs t n).*1.
Proof.
  unfold postings_upto. rewrite <- list_fmap_compose.
  replace (fst ∘ (fun d => (d, term_freq docs t d)) <$> _)
    with (List.filter (fun d => 0 <? term_freq docs t d) (seq 0 n)).
  - apply filter_ascending, seq_ascending.
  - rewrite <- (list_fmap_id (List.filter _ _)) at 1.
    apply list_fmap_ext. by intros.
Qed.

Lemma sum_filter_positive (f : nat → nat) (l : list nat) :
  sum_list (f <$> List.filter (fun d => 0 <? f d) l) = sum_list (f <$> l).
Proof.
  induction l as [|x l IH]; [done|]. cbn [List.filter].
  destruct (Nat.ltb_spec 0 (f x)); csimpl; rewrite IH; lia.
Qed.

Lemma postings_upto_sum docs t n :
  sum_list (postings_upto docs t n).*2
  = sum_list ((fun d => term_freq docs t d) <$> seq 0 n).
Proof.
  unfold postings_upto. rewrite <- list_fmap_compose.
  rewrite <- (sum_filter_positive (fun d => term_freq docs t d) (seq 0 n)).
  f_equal.
Qed.

Lemma occurrences_app t (l1 l2 : list string) :
  occurrences t (l1 ++ l2) = occurrences t l1 + occurrences t l2.
Proof. unfold occurrences. by rewrite List.filter_app, length_app. Qed.

Lemma doc_tokens_app_l docs (doc : Document) d :
  d < length docs → doc_tokens (docs ++ [doc]) d = doc_tokens docs d.
Proof. intros Hd. unfold doc_tokens. by rewrite lookup_app_l. Qed.

Lemma doc_tokens_app_r docs (doc : Document) :
  doc_tokens (docs ++ [doc]) (length docs) = tokenize (doc_text doc).
Proof. unfold doc_tokens. by rewrite list_lookup_middle. Qed.

Lemma corpus_occurrences docs t :
  sum_list ((fun d => term_freq docs t d) <$> seq 0 (length docs))
  = occurrences t (corpus_tokens docs).
Proof.
  induction docs as [|doc docs IH] using rev_ind; [done|].
  rewrite length_app, Nat.add_1_r, seq_S, fmap_app, sum_list_with_app.
  unfold corpus_tokens. rewrite fmap_app, join_app, occurrences_app.
  fold (corpus_tokens docs). rewrite <- IH. csimpl.
  unfold term_freq at 2. rewrite doc_tokens_app_r, app_nil_r.
  rewrite Nat.add_0_r. f_equal. f_equal.
  apply list_fmap_ext. intros i d Hd.
  apply list_elem_of_lookup_2, elem_of_seq in Hd.
  unfold term_freq. rewrite doc_tokens_app_l by lia. done.
Qed.

Lemma occurrences_positive t (toks : list string) :
  0 < occurrences t toks ↔ t ∈ toks.
Proof.
  unfold occurrences. induction toks as [|u toks IH]; simpl.
  - split; [lia|]. intros Hin. by apply not_elem_of_nil in Hin.
  - rewrite elem_of_cons. destruct (String.eqb_spec t u) as [->|Hne]; simpl.
    + split; [by left|lia].
    + rewrite IH. split; [by right|]. intros [?|?]; [congruence|done].
Qed.

Lemma document_frequency_positive docs t :
  0 < document_frequency docs t
  ↔ ∃ d doc, docs !! d = Some doc ∧ t ∈ tokenize (doc_text doc).
Proof.
  split.
  - intros Hpos. unfold document_frequency in Hpos.
    destruct (List.filter _ _) as [|d ds] eqn:Hf; [simpl in Hpos; lia|].
    assert (Hin : In d (List.filter (fun d => 0 <? term_freq docs t d)
                          (seq 0 (length docs)))).
    { rewrite Hf. by left. }
    apply filter_In in Hin as [Hd Htf]. apply in_seq in Hd.
    apply Nat.ltb_lt in Htf.
    destruct (lookup_lt_is_Some_2 docs d ltac:(lia)) as [doc Hdoc].
    exists d, doc. split; [done|]. apply occurrences_positive.
    unfold term_freq in Htf. by rewrite (doc_tokens_lookup _ _ _ Hdoc) in Htf.
  - intros (d & doc & Hdoc & Hin).
    assert (Htf : 0 < term_freq docs t d).
    { unfold term_freq. rewrite (doc_tokens_lookup _ _ _ Hdoc).
      by apply occurrences_positive. }
    by destruct (term_freq_positive docs t d Htf) as (_ & _ & ?).
Qed.

End IndexShape.

(** X4: in a built index every posting list is in strictly ascending order
    of document id, holds only ids of the batch, and holds a posting
    [(d, tf)] exactly when the term occurs [tf >= 1] times among the tokens
    of document [d]; no posting with frequency 0 is stored. *)
Theorem posting_lists_shape (docs : list Document) (term : string) :
  let idx := build_index new_index docs in
  let postings := get_postings idx term in
  StronglySorted lt postings.*1
  ∧ Forall (fun p => fst p < total_docs idx ∧ 1 ≤ snd p) postings
  ∧ ∀ d tf, (d, tf) ∈ postings
            ↔ 0 < tf ∧ tf = occurrences term (doc_tokens docs d).
Proof.
  destruct (build_index_fields docs) as (Hpost & _ & _ & Hnum & _).
  cbv zeta in *. rewrite Hpost, Hnum. split_and!.
  - apply postings_upto_ids.
  - apply Forall_forall. intros [d tf] Hin.
    apply postings_upto_elem_of in Hin. simpl. lia.
  - intros d tf. rewrite postings_upto_elem_of. unfold term_freq.
    split; [by intros (_ & ? & ?)|]. intros [Hpos ->]. split_and!; try done.
    by destruct (term_freq_positive docs term d Hpos) as (? & _).
Qed.

(** X5: the term frequencies stored in the posting list of a term add up to
    the number of occurrences of the term among all tokens of the batch. *)
Theorem postings_conserve_occurrences (docs : list Document) (term : string) :
  sum_list (get_postings (build_index new_index docs) term).*2
  = occurrences term (corpus_tokens docs).
Proof.
  destruct (build_index_fields docs) as (Hpost & _). cbv zeta in Hpost.
  by rewrite Hpost, postings_upto_sum, corpus_occurrences.
Qed.

(** ** Vocabulary, rebuilds and statistics *)

Section IndexMore.

Implicit Types (idx : InvertedIndex) (c : list (string * nat))
  (docs : list Document) (t : string) (d k n : nat).

Lemma fold_add_posting_dom k c : ∀ idx,
  dom (index idx) = vocabulary idx →
  dom (index (fold_left (add_posting k) c idx))
  = vocabulary (fold_left (add_posting k) c idx).
Proof.
  induction c as [|[u n] c IH]; intros idx Hdom; cbn [fold_left]; [done|].
  apply IH. simpl. by rewrite dom_insert_L, Hdom.
Qed.

Lemma fold_index_document_dom (entries : list (nat * Document)) :
  ∀ (st : InvertedIndex * nat),
    dom (index st.1) = vocabulary st.1 →
    dom (index (fold_left index_document entries st).1)
    = vocabulary (fold_left index_document entries st).1.
Proof.
  induction entries as [|[n doc] entries IH]; intros [idx total] Hdom;
    cbn [fold_left]; [done|].
  apply IH. unfold index_document. cbn [fst]. by apply fold_add_posting_dom.
Qed.

Lemma build_index_dom idx docs :
  dom (index idx) = vocabulary idx →
  dom (index (build_index idx docs)) = vocabulary (build_index idx docs).
Proof.
  intros Hdom. unfold build_index.
  pose proof (fold_index_document_dom (enumerate docs)
                (mkInvertedIndex (index idx) (doc_lengths idx)
                   (doc_metadata idx) (vocabulary idx) (length docs)
                   (avg_doc_length idx), 0) Hdom) as Hloop.
  change (fold_left index_document _ _) with (build_loop idx docs) in Hloop.
  by destruct (build_loop idx docs) as [idx' total].
Qed.

(** The loop of [build_index] appends to whatever the index object holds. *)
Lemma fold_index_document_postings docs (rest : list Document) (base : string → list Posting) :
  ∀ done_ (st : InvertedIndex * nat),
    docs = done_ ++ rest →
    (∀ t, get_postings st.1 t = base t ++ postings_upto docs t (length done_)) →
    ∀ t, get_postings
           (fold_left index_document (enumerate_from (length done_) rest) st).1 t
         = base t ++ postings_upto docs t (length docs).
Proof.
  induction rest as [|doc rest IH]; intros done_ [idx total] Hdocs Hst t.
  - rewrite app_nil_r in Hdocs. subst done_. apply Hst.
  - cbn [enumerate_from fold_left].
    specialize (IH (done_ ++ [doc]) (index_document (idx, total)
                                       (length done_, doc))).
    rewrite length_app in IH. simpl length in IH. rewrite Nat.add_1_r in IH.
    apply IH; [by rewrite <- app_assoc|]. clear IH t. intros t.
    assert (Hdoc : docs !! length done_ = Some doc).
    { subst docs. by rewrite list_lookup_middle. }
    unfold index_document. cbn [fst].
    rewrite fold_add_posting_postings, Counter_items.
    set (idx1 := mkInvertedIndex _ _ _ _ _ _).
    change (get_postings idx1 t) with (get_postings idx t).
    specialize (Hst t). simpl in Hst. rewrite Hst, postings_upto_S.
    unfold term_freq. rewrite (doc_tokens_lookup docs _ doc Hdoc).
    rewrite <- app_assoc. f_equal. f_equal.
    by destruct (0 <? occurrences t (tokenize (doc_text doc))).
Qed.

Lemma build_index_postings_from idx docs t :
  get_postings (build_index idx docs) t
  = get_postings idx t ++ postings_upto docs t (length docs).
Proof.
  unfold build_index.
  pose proof (fold_index_document_postings docs docs (get_postings idx) []
                (mkInvertedIndex (index idx) (doc_lengths idx)
                   (doc_metadata idx) (vocabulary idx) (length docs)
                   (avg_doc_length idx), 0) eq_refl) as Hloop.
  change (fold_left index_document _ _) with (build_loop idx docs) in Hloop.
  destruct (build_loop idx docs) as [idx' total].
  apply Hloop. intros u. by rewrite app_nil_r.
Qed.

(** Replacing the list under one key changes a sum over the posting lists
    by the difference. *)
Lemma map_sum_insert (f : list Posting → nat) (m : gmap string (list Posting))
  t (ps : list Posting) :
  f [] = 0 →
  sum_list ((fun kv => f (snd kv)) <$> map_to_list (<[t := ps]> m))
  + f (default [] (m !! t))
  = sum_list ((fun kv => f (snd kv)) <$> map_to_list m) + f ps.
Proof.
  intros Hnil.
  assert (Hins : map_to_list (<[t := ps]> m)
                 ≡ₚ (t, ps) :: map_to_list (delete t m)).
  { rewrite <- insert_delete_eq. apply map_to_list_insert, lookup_delete_eq. }
  rewrite (sum_list_Permutation _ _ (fmap_Permutation _ _ _ Hins)). csimpl.
  destruct (m !! t) as [qs|] eqn:Hlook; simpl.
  - pose proof (map_to_list_delete m t qs Hlook) as Hdel.
    rewrite <- (sum_list_Permutation _ _ (fmap_Permutation
                  (fun kv => f (snd kv)) _ _ Hdel)).
    csimpl. lia.
  - rewrite delete_id by done. lia.
Qed.

Lemma postings_total_fold k c : ∀ idx,
  postings_total (index (fold_left (add_posting k) c idx))
  = postings_total (index idx) + length c.
Proof.
  induction c as [|[u n] c IH]; intros idx; cbn [fold_left].
  - simpl. lia.
  - rewrite IH. unfold postings_total. simpl.
    pose proof (map_sum_insert length (index idx) u
                  (default [] (index idx !! u) ++ [(k, n)]) eq_refl) as Hsum.
    rewrite length_app in Hsum. simpl in Hsum. lia.
Qed.

Lemma postings_total_loop docs (rest : list Document) :
  ∀ done_ (st : InvertedIndex * nat),
    docs = done_ ++ rest →
    postings_total (index st.1)
    = sum_list (distinct_terms docs <$> seq 0 (length done_)) →
    postings_total
      (index (fold_left index_document
                (enumerate_from (length done_) rest) st).1)
    = sum_list (distinct_terms docs <$> seq 0 (length docs)).
Proof.
  induction rest as [|doc rest IH]; intros done_ [idx total] Hdocs Hst.
  - rewrite app_nil_r in Hdocs. by subst done_.
  - cbn [enumerate_from fold_left].
    specialize (IH (done_ ++ [doc]) (index_document (idx, total)
                                       (length done_, doc))).
    rewrite length_app in IH. simpl length in IH. rewrite Nat.add_1_r in IH.
    apply IH; [by rewrite <- app_assoc|]. clear IH.
    assert (Hdoc : docs !! length done_ = Some doc).
    { subst docs. by rewrite list_lookup_middle. }
    unfold index_document. cbn [fst]. rewrite postings_total_fold.
    simpl in Hst. cbn [index]. rewrite Hst.
    rewrite seq_S, fmap_app, sum_list_with_app. csimpl.
    unfold distinct_terms at 3.
    rewrite (doc_tokens_lookup docs _ doc Hdoc). lia.
Qed.

Lemma postings_total_built docs :
  postings_total (index (build_index new_index docs))
  = sum_list (distinct_terms docs <$> seq 0 (length docs)).
Proof.
  unfold build_index.
  pose proof (postings_total_loop docs docs []
                (mkInvertedIndex (index new_index) (doc_lengths new_index)
                   (doc_metadata new_index) (vocabulary new_index)
                   (length docs) (avg_doc_length new_index), 0)
                eq_refl eq_refl) as Hloop.
  change (fold_left index_document _ _) with (build_loop new_index docs)
    in Hloop.
  by destruct (build_loop new_index docs) as [idx' total].
Qed.

End IndexMore.

Lemma built_index_keys (docs : list Document) :
  let idx := build_index new_index docs in
  dom (index idx) = vocabulary idx
  ∧ size (vocabulary idx) = size (index idx)
  ∧ (∀ term, term ∈ vocabulary idx
             ↔ ∃ d doc, docs !! d = Some doc ∧ term ∈ tokenize (doc_text doc))
  ∧ (∀ term postings, index idx !! term = Some postings → postings ≠ []).
Proof.
  cbv zeta.
  assert (Hdom : dom (index (build_index new_index docs))
                 = vocabulary (build_index new_index docs)).
  { by apply build_index_dom. }
  destruct (build_index_fields docs) as (_ & _ & _ & _ & _ & _ & _ & Hvoc).
  cbv zeta in Hvoc. split_and!.
  - done.
  - by rewrite <- Hdom, size_dom.
  - intros term. by rewrite vocabulary_built, document_frequency_positive.
  - intros term postings Hlook.
    assert (Hin : term ∈ vocabulary (build_index new_index docs)).
    { rewrite <- Hdom. apply elem_of_dom. eauto. }
    apply Hvoc in Hin. unfold get_postings in Hin. by rewrite Hlook in Hin.
Qed.

(** X6: in a built index the vocabulary is the set of keys of the posting
    map, it holds exactly the terms that occur among the tokens of some
    document of the batch, and no key maps to an empty posting list. *)
Theorem vocabulary_is_index_keys (docs : list Document) :
  let idx := build_index new_index docs in
  dom (index idx) = vocabulary idx
  ∧ size (vocabulary idx) = size (index idx)
  ∧ (∀ term, term ∈ vocabulary idx
             ↔ ∃ d doc, docs !! d = Some doc ∧ term ∈ tokenize (doc_text doc))
  ∧ (∀ term postings, index idx !! term = Some postings → postings ≠ []).
Proof. exact (built_index_keys docs). Qed.

Lemma vocabulary_is_index_keys_witness :
  index (build_index new_index scenario_corpus) !! "cat" ≠ Some [].
Proof.
  intros Hlook.
  by apply (proj2 (proj2 (proj2 (vocabulary_is_index_keys scenario_corpus)))
              "cat" [] Hlook).
Defined.

(** X7: [build_index] appends to the posting lists the index object already
    holds: on any index, the postings of a term afterwards are the old ones
    followed by those of the new batch.  So a second build over the same
    batch doubles every document frequency; the index must be fresh. *)
Theorem build_index_appends (idx : InvertedIndex) (docs : list Document)
  (term : string) :
  get_postings (build_index idx docs) term
  = get_postings idx term
    ++ get_postings (build_index new_index docs) term
  ∧ get_doc_freq (build_index (build_index new_index docs) docs) term
    = 2 * get_doc_freq (build_index new_index docs) term.
Proof.
  assert (Hfresh : get_postings (build_index new_index docs) term
                   = postings_upto docs term (length docs)).
  { by rewrite build_index_postings_from. }
  split.
  - by rewrite Hfresh, build_index_postings_from.
  - change (get_doc_freq ?i term) with (length (get_postings i term)).
    rewrite build_index_postings_from, length_app, Hfresh. lia.
Qed.

(** ** Index statistics *)

Section Statistics.

Implicit Types (x y : string * nat) (l : list (string * nat)).

Lemma insert_by_freq_Permutation x l : insert_by_freq x l ≡ₚ x :: l.
Proof.
  induction l as [|y l IH]; simpl; [done|].
  destruct (snd x <? snd y); [|done]. rewrite IH. apply Permutation_swap.
Qed.

Lemma sort_by_freq_Permutation l : sort_by_freq l ≡ₚ l.
Proof.
  induction l as [|x l IH]; simpl; [done|].
  by rewrite insert_by_freq_Permutation, IH.
Qed.

Lemma insert_by_freq_sorted x l :
  StronglySorted (fun a b => snd b ≤ snd a) l →
  StronglySorted (fun a b => snd b ≤ snd a) (insert_by_freq x l).
Proof.
  induction l as [|y l IH]; intros Hsorted; simpl.
  - repeat constructor.
  - apply StronglySorted_inv in Hsorted as [Hsorted Hy].
    destruct (Nat.ltb_spec (snd x) (snd y)) as [Hlt|Hge].
    + constructor; [by apply IH|].
      rewrite insert_by_freq_Permutation. constructor; [lia|done].
    + constructor; [by constructor|]. constructor; [done|].
      eapply Forall_impl; [exact Hy|]. intros z Hz. simpl in Hz. lia.
Qed.

Lemma sort_by_freq_sorted l :
  StronglySorted (fun a b => snd b ≤ snd a) (sort_by_freq l).
Proof.
  induction l as [|x l IH]; simpl; [constructor|].
  by apply insert_by_freq_sorted.
Qed.

Lemma items_lengths (items : list (string * list Posting)) :
  Forall (fun kv => 1 ≤ length (snd kv)) items →
  length items ≤ sum_list ((fun kv => length (snd kv)) <$> items).
Proof. induction 1; csimpl; lia. Qed.

Lemma get_top_terms_length (items : list (string * list Posting)) (n : Z) :
  (0 ≤ n)%Z → length (get_top_terms items n) = min (Z.to_nat n) (length items).
Proof.
  intros Hn. unfold get_top_terms, slice_to.
  destruct (Z.leb_spec 0 n); [|lia].
  rewrite length_take, (Permutation_length (sort_by_freq_Permutation _)).
  by rewrite length_fmap.
Qed.

End Statistics.

(** X8: for the items of a built index in any order and [n >= 0],
    [_get_top_terms] returns [min(n, vocabulary size)] entries with distinct
    terms, in descending order of document frequency; every entry carries the
    document frequency of its term, which is at least 1, and no term left out
    has a greater document frequency than an entry returned. *)
Theorem top_terms_ranked (docs : list Document)
  (items : list (string * list Posting)) (n : Z) :
  items ≡ₚ map_to_list (index (build_index new_index docs)) →
  (0 ≤ n)%Z →
  let idx := build_index new_index docs in
  let top := get_top_terms items n in
  length top = min (Z.to_nat n) (size (vocabulary idx))
  ∧ StronglySorted (fun a b => snd b ≤ snd a) top
  ∧ NoDup top.*1
  ∧ Forall (fun x => fst x ∈ vocabulary idx
                     ∧ snd x = get_doc_freq idx (fst x) ∧ 1 ≤ snd x) top
  ∧ ∀ term, term ∈ vocabulary idx → term ∉ top.*1 →
            Forall (fun x => get_doc_freq idx term ≤ snd x) top.
Proof.
  intros Hitems Hn.
  destruct (built_index_keys docs) as (Hdom & Hsize & _ & Hne).
  cbv zeta in *. set (idx := build_index new_index docs) in *.
  set (tdf := (fun kv : string * list Posting => (fst kv, length (snd kv)))
                <$> items).
  assert (Htop : get_top_terms items n = take (Z.to_nat n) (sort_by_freq tdf)).
  { unfold get_top_terms, slice_to. fold tdf.
    by destruct (Z.leb_spec 0 n); [|lia]. }
  rewrite Htop.
  assert (Hmem : ∀ x, x ∈ sort_by_freq tdf
                      ↔ ∃ ps, index idx !! fst x = Some ps ∧ snd x = length ps).
  { intros [t f]. rewrite sort_by_freq_Permutation. unfold tdf.
    rewrite list_elem_of_fmap. simpl. split.
    - intros ([u ps] & Heq & Hin). injection Heq as -> ->.
      rewrite Hitems in Hin. apply elem_of_map_to_list in Hin. eauto.
    - intros (ps & Hlook & ->). exists (t, ps). split; [done|].
      rewrite Hitems. by apply elem_of_map_to_list. }
  assert (Hkeys : NoDup (sort_by_freq tdf).*1).
  { rewrite sort_by_freq_Permutation. unfold tdf.
    rewrite <- list_fmap_compose.
    replace (fst ∘ (fun kv : string * list Posting => (fst kv, length (snd kv)))
             <$> items) with (items.*1)
      by (apply list_fmap_ext; by intros).
    rewrite Hitems. apply NoDup_fst_map_to_list. }
  assert (Hsorted := sort_by_freq_sorted tdf).
  rewrite <- (take_drop (Z.to_nat n) (sort_by_freq tdf)) in Hsorted, Hkeys.
  split_and!.
  - rewrite <- Htop, get_top_terms_length by done.
    by rewrite (Permutation_length Hitems), length_map_to_list, Hsize.
  - by apply StronglySorted_app_1_l in Hsorted.
  - rewrite fmap_app in Hkeys. by apply NoDup_app in Hkeys as (? & _).
  - apply Forall_forall. intros x Hx.
    assert (Hin : x ∈ sort_by_freq tdf).
    { rewrite <- (take_drop (Z.to_nat n) (sort_by_freq tdf)).
      apply elem_of_app. by left. }
    apply Hmem in Hin as (ps & Hlook & Hlen).
    split_and!.
    + rewrite <- Hdom. apply elem_of_dom. eauto.
    + unfold get_doc_freq. by rewrite Hlook.
    + rewrite Hlen. pose proof (Hne _ _ Hlook). destruct ps; [done|simpl; lia].
  - intros term Hvoc Hout. apply Forall_forall. intros x Hx.
    rewrite <- Hdom in Hvoc. apply elem_of_dom in Hvoc as [ps Hlook].
    assert (Hin : (term, length ps) ∈ sort_by_freq tdf).
    { apply Hmem. simpl. eauto. }
    rewrite <- (take_drop (Z.to_nat n) (sort_by_freq tdf)) in Hin.
    apply elem_of_app in Hin as [Hin|Hin].
    + exfalso. apply Hout. apply list_elem_of_fmap. by exists (term, length ps).
    + pose proof (StronglySorted_app_1_elem_of _ _ _ _ _ Hsorted Hx Hin) as Hle.
      simpl in Hle. unfold get_doc_freq. by rewrite Hlook.
Qed.

Lemma top_terms_ranked_witness :
  length (get_top_terms
            (map_to_list (index (build_index new_index scenario_corpus))) 2)
  = min 2 (size (vocabulary (build_index new_index scenario_corpus))).
Proof.
  apply (top_terms_ranked scenario_corpus
           (map_to_list (index (build_index new_index scenario_corpus))) 2).
  - reflexivity.
  - lia.
Defined.

(** X9: the statistics exported for a built index, its items taken in any
    order: [total_documents] is the size of the batch, [vocabulary_size] the
    number of index keys, [total_postings] the sum over the documents of
    their numbers of distinct tokens, which is at least the vocabulary size,
    and the top-terms list has [min(20, vocabulary_size)] entries. *)
Theorem index_statistics_built (docs : list Document)
  (items : list (string * list Posting)) :
  items ≡ₚ map_to_list (index (build_index new_index docs)) →
  let stats := index_statistics (build_index new_index docs) items in
  total_documents stats = length docs
  ∧ vocabulary_size stats = length items
  ∧ total_postings stats
    = sum_list (distinct_terms docs <$> seq 0 (length docs))
  ∧ vocabulary_size stats ≤ total_postings stats
  ∧ length (top_20_frequent_terms stats) = min 20 (vocabulary_size stats).
Proof.
  intros Hitems.
  destruct (built_index_keys docs) as (Hdom & Hsize & _ & Hne).
  destruct (build_index_fields docs) as (_ & _ & _ & Hnum & _).
  cbv zeta in *. unfold index_statistics. simpl.
  assert (Hlen : size (vocabulary (build_index new_index docs)) = length items).
  { by rewrite Hsize, (Permutation_length Hitems), length_map_to_list. }
  assert (Htotal : sum_list ((fun kv => length (snd kv)) <$> items)
                   = sum_list (distinct_terms docs <$> seq 0 (length docs))).
  { rewrite <- postings_total_built. unfold postings_total.
    apply sum_list_Permutation. by rewrite Hitems. }
  split_and!; try done.
  - rewrite Hlen. apply items_lengths, Forall_forall. intros [t ps] Hin.
    rewrite Hitems in Hin. apply elem_of_map_to_list in Hin.
    pose proof (Hne _ _ Hin). destruct ps; [done|simpl; lia].
  - rewrite Hlen. by apply get_top_terms_length.
Qed.

Lemma index_statistics_built_witness :
  total_documents
    (index_statistics (build_index new_index scenario_corpus)
       (map_to_list (index (build_index new_index scenario_corpus))))
  = 3.
Proof.
  apply (index_statistics_built scenario_corpus
           (map_to_list (index (build_index new_index scenario_corpus)))).
  reflexivity.
Defined.

(** ** Which documents score, and how length and frequency weigh *)

Section ScoreMore.

Local Open Scope R_scope.

Implicit Types (docs : list Document) (t : string) (d : nat).

Lemma sum_R_positive (l : list R) :
  Forall (fun x => 0 <= x) l → (0 < sum_R l ↔ Exists (fun x => 0 < x) l).
Proof.
  induction 1 as [|x l Hx Hl IH]; simpl.
  - split; [lra|]. intros Hex. by apply Exists_nil in Hex.
  - pose proof (sum_R_nonneg l Hl). rewrite Exists_cons. split.
    + intros Hpos. destruct (Rlt_dec 0 x); [by left|].
      right. apply IH. lra.
    + intros [Hpos|Hex]; [lra|]. apply IH in Hex. lra.
Qed.

Lemma tfidf_term_positive docs d t :
  (0 < term_freq docs t d)%nat → 0 < tfidf_term docs d t.
Proof.
  intros Htf. rewrite tfidf_term_matching by done. unfold tfidf_contribution.
  pose proof (tfidf_idf_ge_1 _ _ (document_frequency_le docs t)).
  apply lt_INR in Htf. simpl in Htf.
  apply Rmult_lt_0_compat; [|lra].
  rewrite <- ln_1. apply ln_increasing; lra.
Qed.

Lemma bm25_term_positive (k1 b : R) docs d t :
  0 <= k1 → 0 <= b <= 1 →
  (0 < term_freq docs t d)%nat → 0 < bm25_term k1 b docs d t.
Proof.
  intros Hk1 Hb Htf. rewrite bm25_term_matching by done.
  unfold bm25_contribution.
  pose proof (bm25_idf_pos _ _ (document_frequency_le docs t)).
  destruct (term_freq_positive docs t d Htf) as (_ & Htoks & _).
  pose proof (mean_doc_length_pos docs d Htoks) as Havg.
  assert (Hr : 0 <= INR (length (doc_tokens docs d)) / mean_doc_length docs).
  { apply Rdiv_nonneg; [apply INR_nonneg|done]. }
  pose proof (bm25_denominator_pos k1 b _ _ Hk1 Hb Hr Htf).
  apply lt_INR in Htf. simpl in Htf.
  apply Rmult_lt_0_compat; [done|].
  apply Rdiv_lt_0_compat; [|done]. apply Rmult_lt_0_compat; lra.
Qed.

Lemma term_freq_token docs t d :
  (0 < term_freq docs t d)%nat ↔ t ∈ doc_tokens docs d.
Proof. apply occurrences_positive. Qed.

(** A registered model gives a positive score exactly to the documents that
    hold a query term. *)
Lemma model_score_positive (model : RetrievalModel) docs (terms : list string) d :
  model = TFIDFRetrieval ∨ model = BM25_default →
  0 < model_score model docs terms d
  ↔ ∃ t, t ∈ terms ∧ t ∈ doc_tokens docs d.
Proof.
  destruct default_parameters as [Hk1 Hb].
  assert (Hgen : ∀ g : string → R,
             (∀ t, 0 <= g t) →
             (∀ t, (0 < term_freq docs t d)%nat → 0 < g t) →
             (∀ t, term_freq docs t d = 0%nat → g t = 0) →
             0 < sum_R (g <$> terms) ↔ ∃ t, t ∈ terms ∧ t ∈ doc_tokens docs d).
  { intros g Hnn Hpos Hzero. rewrite sum_R_positive.
    - rewrite Exists_exists. split.
      + intros (x & Hx & Hgx). apply list_elem_of_fmap in Hx as (t & -> & Ht).
        exists t. split; [done|]. apply term_freq_token.
        destruct (term_freq docs t d) eqn:Htf; [|lia].
        rewrite (Hzero t Htf) in Hgx. lra.
      + intros (t & Ht & Hin). exists (g t). split.
        * apply list_elem_of_fmap. eauto.
        * by apply Hpos, term_freq_token.
    - apply Forall_fmap, Forall_forall. intros t _. apply Hnn. }
  intros [-> | ->]; simpl.
  - apply Hgen.
    + apply tfidf_term_nonneg.
    + apply tfidf_term_positive.
    + intros t Hz. by apply term_unmatched.
  - apply Hgen.
    + intros t. by apply bm25_term_nonneg.
    + intros t. by apply bm25_term_positive.
    + intros t Hz. by apply term_unmatched.
Qed.

Lemma sum_R_le (f g : string → R) (l : list string) :
  (∀ t, t ∈ l → f t <= g t) → sum_R (f <$> l) <= sum_R (g <$> l).
Proof.
  induction l as [|t l IH]; intros Hle; csimpl; [lra|].
  pose proof (Hle t ltac:(apply list_elem_of_here)).
  assert (sum_R (f <$> l) <= sum_R (g <$> l)).
  { apply IH. intros u Hu. by apply Hle, list_elem_of_further. }
  lra.
Qed.

Lemma sum_R_scale (c : R) (g : string → R) (l : list string) :
  sum_R ((fun t => c * g t) <$> l) = c * sum_R (g <$> l).
Proof. induction l as [|t l IH]; csimpl; [lra|]. rewrite IH. lra. Qed.

(** The BM25 fraction stays below [k1 + 1]. *)
Lemma bm25_term_bound (k1 b : R) docs d t :
  0 <= k1 → 0 <= b <= 1 →
  bm25_term k1 b docs d t
  <= (k1 + 1) * bm25_idf (length docs) (document_frequency docs t).
Proof.
  intros Hk1 Hb.
  pose proof (bm25_idf_pos _ _ (document_frequency_le docs t)) as Hidf.
  destruct (term_freq docs t d) as [|n] eqn:Htf.
  - destruct (term_unmatched docs d t Htf) as [_ Hz]. rewrite Hz.
    apply Rmult_le_pos; lra.
  - assert (Hpos : (0 < term_freq docs t d)%nat) by lia.
    rewrite bm25_term_matching by done. unfold bm25_contribution.
    destruct (term_freq_positive docs t d Hpos) as (_ & Htoks & _).
    pose proof (mean_doc_length_pos docs d Htoks) as Havg.
    assert (Hr : 0 <= INR (length (doc_tokens docs d)) / mean_doc_length docs).
    { apply Rdiv_nonneg; [apply INR_nonneg|done]. }
    pose proof (bm25_denominator_pos k1 b _ _ Hk1 Hb Hr Hpos) as Hden.
    assert (HK : 0 <= k1 * (1 - b + b * (INR (length (doc_tokens docs d))
                                         / mean_doc_length docs))).
    { apply Rmult_le_pos; [done|].
      assert (0 <= b * (INR (length (doc_tokens docs d))
                        / mean_doc_length docs)) by (apply Rmult_le_pos; lra).
      lra. }
    apply lt_INR in Hpos. simpl in Hpos.
    rewrite (Rmult_comm (k1 + 1)). apply Rmult_le_compat_l; [lra|].
    apply (Rmult_le_reg_r _ _ _ Hden).
    unfold Rdiv. rewrite Rmult_assoc, Rinv_l by lra. nra.
Qed.

(** With the same term frequency, a longer document adds no more. *)
Lemma bm25_term_length (k1 b : R) docs d1 d2 t :
  0 <= k1 → 0 <= b <= 1 →
  term_freq docs t d1 = term_freq docs t d2 →
  (length (doc_tokens docs d1) ≤ length (doc_tokens docs d2))%nat →
  bm25_term k1 b docs d2 t <= bm25_term k1 b docs d1 t.
Proof.
  intros Hk1 Hb Heq Hlen.
  destruct (term_freq docs t d1) as [|n] eqn:Htf1.
  - destruct (term_unmatched docs d1 t Htf1) as [_ Hz1].
    destruct (term_unmatched docs d2 t (eq_sym Heq)) as [_ Hz2].
    rewrite Hz1, Hz2. lra.
  - assert (Hp1 : (0 < term_freq docs t d1)%nat) by lia.
    assert (Hp2 : (0 < term_freq docs t d2)%nat) by lia.
    rewrite !bm25_term_matching by done. rewrite <- Heq, Htf1.
    unfold bm25_contribution.
    pose proof (bm25_idf_pos _ _ (document_frequency_le docs t)) as Hidf.
    destruct (term_freq_positive docs t d1 Hp1) as (_ & Htoks & _).
    pose proof (mean_doc_length_pos docs d1 Htoks) as Havg.
    set (avg := mean_doc_length docs) in *.
    set (L1 := INR (length (doc_tokens docs d1))).
    set (L2 := INR (length (doc_tokens docs d2))).
    assert (HL : L1 <= L2) by (by apply le_INR).
    assert (HL1 : 0 <= L1) by apply INR_nonneg.
    assert (Hr1 : 0 <= L1 / avg) by (by apply Rdiv_nonneg).
    assert (Hr12 : L1 / avg <= L2 / avg).
    { unfold Rdiv. apply Rmult_le_compat_r; [|done].
      left. by apply Rinv_0_lt_compat. }
    assert (Hr2 : 0 <= L2 / avg) by lra.
    pose proof (bm25_denominator_pos k1 b _ (S n) Hk1 Hb Hr1 ltac:(lia)) as Hd1.
    pose proof (bm25_denominator_pos k1 b _ (S n) Hk1 Hb Hr2 ltac:(lia)) as Hd2.
    assert (Hden : INR (S n) + k1 * (1 - b + b * (L1 / avg))
                   <= INR (S n) + k1 * (1 - b + b * (L2 / avg))).
    { assert (b * (L1 / avg) <= b * (L2 / avg))
        by (apply Rmult_le_compat_l; lra).
      assert (k1 * (1 - b + b * (L1 / avg)) <= k1 * (1 - b + b * (L2 / avg)))
        by (apply Rmult_le_compat_l; lra).
      lra. }
    pose proof (INR_nonneg (S n)) as Htf.
    apply Rmult_le_compat_l; [lra|].
    apply Rdiv_le_cross; [done|done|].
    apply Rmult_le_compat_l; [|done]. apply Rmult_le_pos; lra.
Qed.

End ScoreMore.

(** X10: on a built index both models give a document a positive score
    exactly when one of the query terms is among the tokens of the document;
    otherwise the score is 0. *)
Theorem positive_score_iff_match (docs : list Document)
  (query_terms : list string) (doc_id : nat) :
  let idx := build_index new_index docs in
  ∃ s_tfidf s_bm25,
    score_document TFIDFRetrieval idx query_terms doc_id = Ok s_tfidf
    ∧ score_document BM25_default idx query_terms doc_id = Ok s_bm25
    ∧ ((0 < s_tfidf)%R
       ↔ ∃ t, t ∈ query_terms ∧ t ∈ doc_tokens docs doc_id)
    ∧ ((0 < s_bm25)%R
       ↔ ∃ t, t ∈ query_terms ∧ t ∈ doc_tokens docs doc_id).
Proof.
  cbv zeta.
  exists (model_score TFIDFRetrieval docs query_terms doc_id),
         (model_score BM25_default docs query_terms doc_id).
  split_and!.
  - apply registered_score_document. by left.
  - apply registered_score_document. by right.
  - apply model_score_positive. by left.
  - apply model_score_positive. by right.
Qed.

(** X11: the BM25 score saturates: whatever the term frequencies, the score
    of a document is at most [k1 + 1 = 2.5] times the sum of the idf values
    of the query terms. *)
Theorem bm25_score_saturates (docs : list Document) (query_terms : list string)
  (doc_id : nat) :
  let idx := build_index new_index docs in
  ∃ score,
    score_document BM25_default idx query_terms doc_id = Ok score
    ∧ (score
       <= 2.5 * sum_R ((fun t => bm25_idf (total_docs idx) (get_doc_freq idx t))
                       <$> query_terms))%R.
Proof.
  destruct (build_index_fields docs) as (_ & _ & _ & Hnum & _).
  destruct default_parameters as [Hk1 Hb]. cbv zeta in *.
  exists (bm25_score 1.5 0.75 docs query_terms doc_id). split.
  - by apply bm25_score_document.
  - rewrite <- sum_R_scale. unfold bm25_score. apply sum_R_le.
    intros t _. rewrite get_doc_freq_built, Hnum.
    replace 2.5%R with (1.5 + 1)%R by lra. by apply bm25_term_bound.
Qed.

(** X12: TF-IDF ignores document length and BM25 penalises it: of two
    documents with the same frequency for every query term, both get the
    same TF-IDF score, and the one with no more tokens gets at least the
    BM25 score of the other. *)
Theorem length_normalisation (docs : list Document) (query_terms : list string)
  (d1 d2 : nat) :
  (∀ t, t ∈ query_terms → term_freq docs t d1 = term_freq docs t d2) →
  length (doc_tokens docs d1) ≤ length (doc_tokens docs d2) →
  let idx := build_index new_index docs in
  ∃ t1 t2 b1 b2,
    score_document TFIDFRetrieval idx query_terms d1 = Ok t1
    ∧ score_document TFIDFRetrieval idx query_terms d2 = Ok t2
    ∧ score_document BM25_default idx query_terms d1 = Ok b1
    ∧ score_document BM25_default idx query_terms d2 = Ok b2
    ∧ t1 = t2 ∧ (b2 <= b1)%R.
Proof.
  intros Htf Hlen. destruct default_parameters as [Hk1 Hb]. cbv zeta.
  exists (tfidf_score docs query_terms d1), (tfidf_score docs query_terms d2),
         (bm25_score 1.5 0.75 docs query_terms d1),
         (bm25_score 1.5 0.75 docs query_terms d2).
  split_and!; try apply tfidf_score_document; try (by apply bm25_score_document).
  - unfold tfidf_score. f_equal. apply list_fmap_ext. intros i t Hin.
    apply list_elem_of_lookup_2 in Hin. unfold tfidf_term.
    by rewrite (Htf t Hin).
  - unfold bm25_score. apply sum_R_le. intros t Hin.
    apply bm25_term_length; try done. by apply Htf.
Qed.

Lemma length_normalisation_witness :
  ∃ b1 b2,
    score_document BM25_default (build_index new_index scenario_corpus)
      ["dog"] 0 = Ok b1
    ∧ score_document BM25_default (build_index new_index scenario_corpus)
        ["dog"] 2 = Ok b2
    ∧ (b2 <= b1)%R.
Proof.
  destruct (length_normalisation scenario_corpus ["dog"] 0 2)
    as (t1 & t2 & b1 & b2 & _ & _ & H1 & H2 & _ & Hle).
  - intros t Hin. apply list_elem_of_singleton in Hin. subst t.
    vm_compute. reflexivity.
  - vm_compute. lia.
  - exists b1, b2. split; [exact H1|]. split; [exact H2|exact Hle].
Defined.

(** ** Search: edges, state and translation *)

Section SearchMore.

Implicit Types (docs : list Document) (sys : CLIRSystem) (d : nat).

Lemma id_score_attached docs (l : list (nat * R)) :
  id_score <$> ((fun p => (fst p, snd p, meta_at docs (fst p))) <$> l) = l.
Proof.
  rewrite <- list_fmap_compose. rewrite <- (list_fmap_id l) at 2.
  apply list_fmap_ext. by intros _ [d s] _.
Qed.

Lemma empty_of_no_element {A : Type} (l : list A) : (∀ x, x ∉ l) → l = [].
Proof.
  destruct l as [|x l]; [done|]. intros Hno. exfalso.
  apply (Hno x), list_elem_of_here.
Qed.

Lemma slice_to_nil {A : Type} (k : Z) : slice_to (@nil A) k = [].
Proof. unfold slice_to. destruct (0 <=? k)%Z; apply take_nil. Qed.

Lemma doc_tokens_in_batch docs d t :
  t ∈ doc_tokens docs d →
  ∃ doc, docs !! d = Some doc ∧ t ∈ tokenize (doc_text doc).
Proof.
  unfold doc_tokens. destruct (docs !! d) as [doc|]; simpl; [by eauto|].
  intros Hin. by apply not_elem_of_nil in Hin.
Qed.

(** The ranking is empty when no query term is in the vocabulary. *)
Lemma ranking_unindexed_terms (model : RetrievalModel) docs (terms : list string) :
  model = TFIDFRetrieval ∨ model = BM25_default →
  (∀ t, t ∈ terms → t ∉ vocabulary (build_index new_index docs)) →
  ranking model docs terms = [].
Proof.
  intros Hmodel Hout. apply empty_of_no_element. intros [d s] Hin.
  apply ranking_elem_of in Hin as (_ & -> & Hpos).
  apply (model_score_positive model docs terms d Hmodel) in Hpos
    as (t & Ht & Htok).
  apply (Hout t Ht). apply vocabulary_built, document_frequency_positive.
  destruct (doc_tokens_in_batch docs d t Htok) as (doc & ? & ?). eauto.
Qed.

Lemma positive_scores_length (score : nat → R) (ids : list nat) :
  length (positive_scores score ids) ≤ length ids.
Proof.
  induction ids as [|i ids IH]; simpl; [done|].
  destruct (Rlt_dec 0 (score i)); simpl; lia.
Qed.

Lemma ranking_length (model : RetrievalModel) docs (terms : list string) :
  length (ranking model docs terms) ≤ length docs.
Proof.
  unfold ranking. rewrite (Permutation_length (sort_desc_Permutation _)).
  etransitivity; [apply positive_scores_length|]. by rewrite length_seq.
Qed.

Lemma ranking_ids_match (model : RetrievalModel) docs (terms : list string) d :
  model = TFIDFRetrieval ∨ model = BM25_default →
  d ∈ (ranking model docs terms).*1
  ↔ ∃ t, t ∈ terms ∧ t ∈ doc_tokens docs d.
Proof.
  intros Hmodel. rewrite list_elem_of_fmap. split.
  - intros ([d' s] & -> & Hin). simpl.
    apply ranking_elem_of in Hin as (_ & -> & Hpos).
    by apply (model_score_positive model docs terms d' Hmodel).
  - intros Hmatch. pose proof Hmatch as (t & _ & Htok).
    exists (d, model_score model docs terms d). split; [done|].
    apply ranking_elem_of. split_and!; [|done|].
    + destruct (doc_tokens_in_batch docs d t Htok) as (doc & Hdoc & _).
      by eapply lookup_lt_Some.
    + by apply model_score_positive.
Qed.

End SearchMore.

(** X13: over the index of an empty batch ([total_docs = 0],
    [avg_doc_length = 0]) every search returns the empty list, whatever the
    query, method, [top_k] or language, and records [num_results = 0]. *)
Theorem empty_batch_search (clock : Clock) (sys : CLIRSystem)
  (q m : string) (top_k : Z) (query_lang : string) :
  Indexed [] sys →
  total_docs (sys_index sys) = 0
  ∧ avg_doc_length (sys_index sys) = 0%R
  ∧ ∃ record,
      search clock sys q m top_k query_lang = Ok ([], with_record sys record)
      ∧ num_results record = 0 ∧ results record = [].
Proof.
  intros Hsys.
  pose proof (search_indexed clock [] sys q m top_k query_lang Hsys) as Hsearch.
  destruct Hsys as (_ & Hidx & _). rewrite Hidx. split_and!; try done.
  cbv zeta in Hsearch.
  change (ranking _ [] _) with (@nil (nat * R)) in Hsearch.
  rewrite slice_to_nil in Hsearch. eexists. split; [exact Hsearch|done].
Qed.

Lemma empty_batch_search_witness :
  ∃ record,
    search example_clock (index_batch (new_system None) []) "anything" "bm25"
      5 "en"
    = Ok ([], with_record (index_batch (new_system None) []) record).
Proof.
  destruct (empty_batch_search example_clock (index_batch (new_system None) [])
              "anything" "bm25" 5 "en") as (_ & _ & r & Hr & _).
  - repeat split; reflexivity.
  - exists r. exact Hr.
Defined.

(** X14: over an indexed system a query none of whose tokens is in the
    vocabulary (an empty query, a query of words of at most two characters,
    unknown words) returns the empty list and records [num_results = 0]. *)
Theorem unindexed_query_finds_nothing (clock : Clock) (docs : list Document)
  (sys : CLIRSystem) (q m : string) (top_k : Z) (query_lang : string) :
  Indexed docs sys →
  (∀ t, t ∈ tokenize (working_query sys q query_lang) →
        t ∉ vocabulary (sys_index sys)) →
  ∃ record,
    search clock sys q m top_k query_lang = Ok ([], with_record sys record)
    ∧ num_results record = 0.
Proof.
  intros Hsys Hout.
  pose proof (search_indexed clock docs sys q m top_k query_lang Hsys) as Hsearch.
  destruct Hsys as (_ & Hidx & _). rewrite Hidx in Hout.
  cbv zeta in Hsearch.
  rewrite (ranking_unindexed_terms _ docs _ (selected_registered m) Hout),
    slice_to_nil in Hsearch.
  eexists. split; [exact Hsearch|done].
Qed.

Lemma unindexed_query_finds_nothing_witness :
  ∃ record,
    search example_clock (index_batch (new_system None) scenario_corpus)
      "a of it" "tfidf" 10 "en"
    = Ok ([], with_record (index_batch (new_system None) scenario_corpus)
                record).
Proof.
  destruct (unindexed_query_finds_nothing example_clock scenario_corpus
              (index_batch (new_system None) scenario_corpus)
              "a of it" "tfidf" 10 "en") as (r & Hr & _).
  - repeat split; reflexivity.
  - intros t Hin. vm_compute in Hin. by apply not_elem_of_nil in Hin.
  - exists r. exact Hr.
Defined.

(** X15: over an indexed system [search] returns for every integer [top_k]:
    the first [top_k] entries of the ranking when [top_k >= 0] (none for 0),
    and for a negative [top_k] the ranking without its last [-top_k] entries;
    it never raises on a non-positive [top_k]. *)
Theorem search_any_top_k (clock : Clock) (docs : list Document)
  (sys : CLIRSystem) (q m : string) (top_k : Z) (query_lang : string) :
  Indexed docs sys →
  let full := ranking (selected_model m) docs
                (tokenize (working_query sys q query_lang)) in
  ∃ out sys',
    search clock sys q m top_k query_lang = Ok (out, sys')
    ∧ id_score <$> out
      = (if (0 <=? top_k)%Z then take (Z.to_nat top_k) full
         else take (length full - Z.to_nat (- top_k)) full)
    ∧ length out
      = (if (0 <=? top_k)%Z then min (Z.to_nat top_k) (length full)
         else length full - Z.to_nat (- top_k)).
Proof.
  intros Hsys full.
  pose proof (search_indexed clock docs sys q m top_k query_lang Hsys) as Hsearch.
  cbv zeta in Hsearch. fold full in Hsearch.
  eexists _, _. split; [exact Hsearch|]. split.
  - by rewrite id_score_attached.
  - rewrite length_fmap. unfold slice_to.
    destruct (0 <=? top_k)%Z; rewrite length_take; lia.
Qed.

Lemma search_any_top_k_witness :
  ∃ out sys',
    search example_clock (index_batch (new_system None) scenario_corpus)
      "cat" "bm25" (-1) "en" = Ok (out, sys')
    ∧ length out
      = length (ranking (selected_model "bm25") scenario_corpus
                  (tokenize (working_query
                               (index_batch (new_system None) scenario_corpus)
                               "cat" "en"))) - 1.
Proof.
  destruct (search_any_top_k example_clock scenario_corpus
              (index_batch (new_system None) scenario_corpus)
              "cat" "bm25" (-1) "en") as (out & sys' & H1 & _ & H3).
  - repeat split; reflexivity.
  - exists out, sys'. split; [exact H1|exact H3].
Defined.

(** X16: a search over an indexed system changes nothing but the history, to
    which it appends one record, so the system stays indexed; the record
    holds the caller's query, language and method, the clock readings, the
    number of entries returned and their ids and scores in order. *)
Theorem search_appends_record (clock : Clock) (docs : list Document)
  (sys : CLIRSystem) (q m : string) (top_k : Z) (query_lang : string) :
  Indexed docs sys →
  ∃ out sys' record,
    search clock sys q m top_k query_lang = Ok (out, sys')
    ∧ sys_index sys' = sys_index sys
    ∧ documents sys' = documents sys
    ∧ retrieval_models sys' = retrieval_models sys
    ∧ translator sys' = translator sys
    ∧ search_history sys' = search_history sys ++ [record]
    ∧ Indexed docs sys'
    ∧ query record = q
    ∧ query_language record = query_lang
    ∧ method record = m
    ∧ num_results record = length out
    ∧ latency_seconds record = (end_time clock - start_time clock)%R
    ∧ timestamp record = now_isoformat clock
    ∧ (fun e => (res_doc_id e, res_score e)) <$> results record
      = id_score <$> out.
Proof.
  intros Hsys.
  pose proof (search_indexed clock docs sys q m top_k query_lang Hsys) as Hsearch.
  cbv zeta in Hsearch. eexists _, _, _. split; [exact Hsearch|].
  split_and!; try done.
  - by rewrite length_fmap.
  - rewrite id_score_attached. simpl. rewrite <- list_fmap_compose.
    rewrite <- (list_fmap_id (slice_to _ top_k)) at 2.
    apply list_fmap_ext. by intros _ [d s] _.
Qed.

Lemma search_appends_record_witness :
  ∃ out sys',
    search example_clock (index_batch (new_system None) scenario_corpus)
      "cat" "bm25" 10 "en" = Ok (out, sys')
    ∧ Indexed scenario_corpus sys'.
Proof.
  destruct (search_appends_record example_clock scenario_corpus
              (index_batch (new_system None) scenario_corpus)
              "cat" "bm25" 10 "en")
    as (out & sys' & r & H1 & _ & _ & _ & _ & _ & H7 & _).
  - repeat split; reflexivity.
  - exists out, sys'. split; [exact H1|exact H7].
Defined.

(** X17: [search] needs the ['bm25'] model whatever the method asked for:
    the default of [dict.get] is evaluated first, so on a system without it
    (before [scrape_and_index], or with only another model registered) the
    call raises [KeyError] and the history is not touched. *)
Theorem search_needs_bm25 (clock : Clock) (sys : CLIRSystem) (q m : string)
  (top_k : Z) (query_lang : string) :
  retrieval_models sys !! "bm25" = None →
  search clock sys q m top_k query_lang = Raise KeyError.
Proof.
  intros Hnone. unfold search, rank, select_model. by rewrite Hnone.
Qed.

Lemma search_needs_bm25_witness :
  search example_clock
    (mkCLIRSystem new_index [] (<["tfidf" := TFIDFRetrieval]> ∅) None [])
    "cat" "tfidf" 10 "en"
  = Raise KeyError.
Proof. apply search_needs_bm25. reflexivity. Defined.

(** X18: over an indexed system, when the query language is not ['en'] and
    the translator returns a text, the search ranks for that text; the
    record keeps the original query and stores the translation unless it
    equals the query. *)
Theorem translation_replaces_query (clock : Clock) (docs : list Document)
  (sys : CLIRSystem) (tr : Translator) (q text m : string) (top_k : Z)
  (query_lang : string) :
  Indexed docs sys →
  query_lang ≠ "en" →
  translator sys = Some tr →
  tr q query_lang "en" = Ok text →
  ∃ out record,
    search clock sys q m top_k query_lang = Ok (out, with_record sys record)
    ∧ id_score <$> out
      = slice_to (ranking (selected_model m) docs (tokenize text)) top_k
    ∧ query record = q
    ∧ translated_query record
      = (if bool_decide (text = q) then None else Some text).
Proof.
  intros Hsys Hlang Htr Hcall.
  pose proof (search_indexed clock docs sys q m top_k query_lang Hsys) as Hsearch.
  cbv zeta in Hsearch.
  assert (Hwork : working_query sys q query_lang = text).
  { unfold working_query, translate_query.
    rewrite bool_decide_eq_true_2 by done. by rewrite Htr, Hcall. }
  rewrite Hwork in Hsearch.
  eexists _, _. split; [exact Hsearch|]. split_and!.
  - by rewrite id_score_attached.
  - done.
  - simpl. destruct (decide (text = q)) as [Heq|Hne].
    + rewrite bool_decide_eq_false_2 by (by intros ?).
      by rewrite bool_decide_eq_true_2.
    + rewrite bool_decide_eq_true_2 by done.
      by rewrite bool_decide_eq_false_2.
Qed.

Lemma translation_replaces_query_witness :
  ∃ out record,
    search example_clock
      (index_batch (new_system (Some cat_translator)) scenario_corpus)
      "billi" "bm25" 10 "hi"
    = Ok (out,
          with_record
            (index_batch (new_system (Some cat_translator)) scenario_corpus)
            record)
    ∧ translated_query record = Some "cat".
Proof.
  destruct (translation_replaces_query example_clock scenario_corpus
              (index_batch (new_system (Some cat_translator)) scenario_corpus)
              cat_translator "billi" "cat" "bm25" 10 "hi")
    as (out & r & H1 & _ & _ & H4).
  - repeat split; reflexivity.
  - discriminate.
  - reflexivity.
  - reflexivity.
  - exists out, r. split; [exact H1|exact H4].
Defined.

(** X19: every entry a search over an indexed system returns carries the
    title, url, date and language of the document of the batch with that
    id, and the record entry at the same position repeats the id, the score,
    the title and the url. *)
Theorem search_returns_metadata (clock : Clock) (docs : list Document)
  (sys : CLIRSystem) (q m : string) (top_k : Z) (query_lang : string) :
  Indexed docs sys →
  ∃ out record,
    search clock sys q m top_k query_lang = Ok (out, with_record sys record)
    ∧ Forall (fun r => ∃ doc,
                docs !! fst (fst r) = Some doc
                ∧ snd r = mkMetadata (title doc) (url doc) (date doc)
                            (language doc)) out
    ∧ Forall2 (fun r e =>
                 res_doc_id e = fst (fst r) ∧ res_score e = snd (fst r)
                 ∧ res_title e = meta_title (snd r)
                 ∧ res_url e = meta_url (snd r)) out (results record).
Proof.
  intros Hsys.
  pose proof (search_indexed clock docs sys q m top_k query_lang Hsys) as Hsearch.
  cbv zeta in Hsearch. eexists _, _. split; [exact Hsearch|].
  set (ranked := slice_to _ top_k).
  assert (Hids : Forall (fun p => fst p < length docs) ranked).
  { apply slice_to_ids, ranking_ids. }
  split.
  - apply Forall_fmap. eapply Forall_impl; [exact Hids|].
    intros [d s] Hd. simpl in *.
    destruct (lookup_lt_is_Some_2 docs d Hd) as [doc Hdoc].
    exists doc. split; [done|]. unfold meta_at. by rewrite Hdoc.
  - simpl. apply Forall2_fmap, Forall_Forall2_diag, Forall_forall.
    by intros [d s] _.
Qed.

Lemma search_returns_metadata_witness :
  ∃ out record,
    search example_clock (index_batch (new_system None) scenario_corpus)
      "cat" "bm25" 10 "en"
    = Ok (out, with_record (index_batch (new_system None) scenario_corpus)
                 record)
    ∧ length out = length (results record).
Proof.
  destruct (search_returns_metadata example_clock scenario_corpus
              (index_batch (new_system None) scenario_corpus)
              "cat" "bm25" 10 "en") as (out & r & H1 & _ & H3).
  - repeat split; reflexivity.
  - exists out, r. split; [exact H1|]. by eapply Forall2_length.
Defined.

(** X20: over an indexed system with [top_k] at least the number of
    documents, both methods return the same documents: exactly those holding
    at least one token of the query. *)
Theorem methods_return_same_documents (clock : Clock) (docs : list Document)
  (sys : CLIRSystem) (q : string) (top_k : Z) (query_lang : string) :
  Indexed docs sys →
  (Z.of_nat (length docs) ≤ top_k)%Z →
  ∃ out_tfidf sys_tfidf out_bm25 sys_bm25,
    search clock sys q "tfidf" top_k query_lang = Ok (out_tfidf, sys_tfidf)
    ∧ search clock sys q "bm25" top_k query_lang = Ok (out_bm25, sys_bm25)
    ∧ ∀ d, (d ∈ (id_score <$> out_tfidf).*1
            ↔ ∃ t, t ∈ tokenize (working_query sys q query_lang)
                   ∧ t ∈ doc_tokens docs d)
           ∧ (d ∈ (id_score <$> out_bm25).*1
              ↔ ∃ t, t ∈ tokenize (working_query sys q query_lang)
                     ∧ t ∈ doc_tokens docs d).
Proof.
  intros Hsys Hk.
  pose proof (search_indexed clock docs sys q "tfidf" top_k query_lang Hsys)
    as Ht.
  pose proof (search_indexed clock docs sys q "bm25" top_k query_lang Hsys)
    as Hb.
  cbv zeta in Ht, Hb.
  assert (Hall : ∀ model terms,
             slice_to (ranking model docs terms) top_k
             = ranking model docs terms).
  { intros model terms. unfold slice_to.
    pose proof (ranking_length model docs terms).
    destruct (Z.leb_spec 0 top_k); [|lia]. apply take_ge. lia. }
  rewrite Hall in Ht, Hb.
  eexists _, _, _, _. split; [exact Ht|]. split; [exact Hb|].
  intros d. rewrite !id_score_attached. split.
  - apply ranking_ids_match. by left.
  - apply ranking_ids_match. by right.
Qed.

Lemma methods_return_same_documents_witness :
  ∃ out_tfidf sys_tfidf out_bm25 sys_bm25,
    search example_clock (index_batch (new_system None) scenario_corpus)
      "cat" "tfidf" 3 "en" = Ok (out_tfidf, sys_tfidf)
    ∧ search example_clock (index_batch (new_system None) scenario_corpus)
        "cat" "bm25" 3 "en" = Ok (out_bm25, sys_bm25).
Proof.
  destruct (methods_return_same_documents example_clock scenario_corpus
              (index_batch (new_system None) scenario_corpus) "cat" 3 "en")
    as (o1 & s1 & o2 & s2 & H1 & H2 & _).
  - repeat split; reflexivity.
  - simpl. lia.
  - exists o1, s1, o2, s2. split; [exact H1|exact H2].
Defined.

(** ** The evaluation harness *)

Section Harness.

Local Open Scope R_scope.

Implicit Types (docs : list Document) (sys : CLIRSystem).

Lemma bind_Ok {A B : Type} (x : A) (f : A → result B) : (Ok x ≫= f) = f x.
Proof. reflexivity. Qed.

Lemma sum_R_app (l1 l2 : list R) : sum_R (l1 ++ l2) = sum_R l1 + sum_R l2.
Proof. induction l1 as [|x l1 IH]; simpl; [lra|]. rewrite IH. lra. Qed.

Lemma slice_to_length_3 {A : Type} (l : list A) :
  length (slice_to l 3) = min 3 (length l).
Proof. unfold slice_to. simpl. by rewrite length_take. Qed.

(** One round of the inner loop over an indexed system. *)
Lemma evaluate_query_indexed (clk : nat → EvalClock) (m : string) docs
  (stats : MethodStats) sys (e : nat * TestQuery) :
  Indexed docs sys →
  ∃ qr r,
    evaluate_query clk m (stats, sys) e
    = Ok (mkMethodStats (ms_method stats) (ms_queries_tested stats)
            (ms_query_results stats ++ [qr])
            (ms_total_latency stats + qr_latency_seconds qr)
            (ms_avg_latency stats),
          with_record sys r)
    ∧ query_result_ok clk e qr ∧ eval_record_ok m e r.
Proof.
  intros Hsys. destruct e as [i tq]. unfold evaluate_query.
  rewrite (search_indexed (call_clock (clk i)) docs sys (tq_query tq) m 10
             (default "en" (tq_lang tq)) Hsys).
  cbv zeta. set (ranked := slice_to _ 10).
  assert (Hlen : (length ranked ≤ 10)%nat).
  { pose proof (slice_to_positive
                  (ranking (selected_model m) docs
                     (tokenize (working_query sys (tq_query tq)
                                  (default "en" (tq_lang tq))))) 10
                  ltac:(lia)) as [_ Hle].
    fold ranked in Hle. lia. }
  eexists (mkQueryResult _ _ _ _), _. split; [reflexivity|]. split.
  - unfold query_result_ok. simpl. rewrite !length_fmap, slice_to_length_3.
    rewrite length_fmap. done.
  - unfold eval_record_ok. simpl. done.
Qed.

(** The inner loop over an indexed system. *)
Lemma evaluate_queries_indexed (clk : nat → EvalClock) (m : string) docs
  (entries : list (nat * TestQuery)) :
  ∀ (stats : MethodStats) sys,
    Indexed docs sys →
    ∃ qrs recs sys',
      foldM (evaluate_query clk m) entries (stats, sys)
      = Ok (mkMethodStats (ms_method stats) (ms_queries_tested stats)
              (ms_query_results stats ++ qrs)
              (ms_total_latency stats + sum_R (qr_latency_seconds <$> qrs))
              (ms_avg_latency stats),
            sys')
      ∧ Indexed docs sys'
      ∧ search_history sys' = search_history sys ++ recs
      ∧ Forall2 (query_result_ok clk) entries qrs
      ∧ Forall2 (eval_record_ok m) entries recs.
Proof.
  induction entries as [|e entries IH]; intros stats sys Hsys.
  - exists [], [], sys. simpl. rewrite !app_nil_r, Rplus_0_r.
    split_and!; try done. by destruct stats.
  - destruct (evaluate_query_indexed clk m docs stats sys e Hsys)
      as (qr & r & Hstep & Hqr & Hr).
    cbn [foldM]. rewrite Hstep. csimpl.
    destruct (IH (mkMethodStats (ms_method stats) (ms_queries_tested stats)
                    (ms_query_results stats ++ [qr])
                    (ms_total_latency stats + qr_latency_seconds qr)
                    (ms_avg_latency stats))
                (with_record sys r) (with_record_Indexed docs sys r Hsys))
      as (qrs & recs & sys' & Hloop & Hsys' & Hhist & Hqrs & Hrecs).
    exists (qr :: qrs), (r :: recs), sys'. rewrite Hloop. csimpl.
    split_and!; try done.
    + do 3 f_equal; [by rewrite <- app_assoc|lra].
    + rewrite Hhist. simpl. by rewrite <- app_assoc.
    + by constructor.
    + by constructor.
Qed.

(** One round of the outer loop over an indexed system. *)
Lemma evaluate_method_indexed (clock_at : string → nat → EvalClock) docs
  (test_queries : list TestQuery) (evaluation : gmap string MethodStats)
  sys (m : string) :
  Indexed docs sys →
  ∃ st recs sys',
    evaluate_method clock_at test_queries (evaluation, sys) m
    = Ok (<[m := st]> evaluation, sys')
    ∧ Indexed docs sys'
    ∧ search_history sys' = search_history sys ++ recs
    ∧ method_stats_ok (clock_at m) m test_queries st
    ∧ Forall2 (eval_record_ok m) (enumerate test_queries) recs.
Proof.
  intros Hsys. unfold evaluate_method.
  destruct (evaluate_queries_indexed (clock_at m) m docs
              (enumerate test_queries)
              (mkMethodStats m (length test_queries) [] 0 0) sys Hsys)
    as (qrs & recs & sys' & Hloop & Hsys' & Hhist & Hqrs & Hrecs).
  rewrite Hloop. csimpl. rewrite Rplus_0_l.
  destruct test_queries as [|tq tqs] eqn:Htqs.
  - csimpl. eexists _, recs, sys'. split; [reflexivity|].
    split_and!; try done; unfold method_stats_ok; simpl; by split_and!.
  - rewrite true_div_ok.
    + csimpl. eexists _, recs, sys'. split; [reflexivity|].
      split_and!; try done; unfold method_stats_ok; simpl; by split_and!.
    + pose proof (lt_0_INR (length (tq :: tqs)) ltac:(simpl; lia)). lra.
Qed.

End Harness.

(** X21: over an indexed system [evaluate_retrieval] does not raise, also
    for an empty list of test queries, and returns statistics for ['tfidf']
    and ['bm25'] only: each counts the test queries, holds one result per
    test query in order with at most 10 results and [min(3, num_results)]
    top documents, a total latency that is the sum of the per-query
    latencies, and an average that is the total divided by the number of
    queries, or 0 when there is none. *)
Theorem evaluate_retrieval_statistics (clock_at : string → nat → EvalClock)
  (docs : list Document) (sys : CLIRSystem) (test_queries : list TestQuery) :
  Indexed docs sys →
  ∃ evaluation sys' st_tfidf st_bm25,
    evaluate_retrieval clock_at sys test_queries = Ok (evaluation, sys')
    ∧ dom evaluation = {["tfidf"; "bm25"]}
    ∧ evaluation !! "tfidf" = Some st_tfidf
    ∧ evaluation !! "bm25" = Some st_bm25
    ∧ method_stats_ok (clock_at "tfidf") "tfidf" test_queries st_tfidf
    ∧ method_stats_ok (clock_at "bm25") "bm25" test_queries st_bm25.
Proof.
  intros Hsys. unfold evaluate_retrieval. cbn [foldM].
  destruct (evaluate_method_indexed clock_at docs test_queries ∅ sys "tfidf"
              Hsys) as (st1 & recs1 & sys1 & Hm1 & Hsys1 & _ & Hst1 & _).
  rewrite Hm1, bind_Ok.
  destruct (evaluate_method_indexed clock_at docs test_queries
              (<["tfidf" := st1]> ∅) sys1 "bm25" Hsys1)
    as (st2 & recs2 & sys2 & Hm2 & _ & _ & Hst2 & _).
  rewrite Hm2, bind_Ok.
  exists (<["bm25" := st2]> (<["tfidf" := st1]> ∅)), sys2, st1, st2.
  split_and!; try done.
  all: rewrite !dom_insert_L, dom_empty_L; set_solver.
Qed.

Lemma evaluate_retrieval_statistics_witness :
  ∃ evaluation sys' st_tfidf,
    evaluate_retrieval (fun _ _ => mkEvalClock 0 example_clock 1)
      (index_batch (new_system None) scenario_corpus) []
    = Ok (evaluation, sys')
    ∧ evaluation !! "tfidf" = Some st_tfidf
    ∧ ms_avg_latency st_tfidf = 0%R.
Proof.
  destruct (evaluate_retrieval_statistics
              (fun _ _ => mkEvalClock 0 example_clock 1) scenario_corpus
              (index_batch (new_system None) scenario_corpus) [])
    as (ev & sys' & st1 & st2 & H1 & _ & H3 & _ & H5 & _).
  - repeat split; reflexivity.
  - exists ev, sys', st1. split; [exact H1|]. split; [exact H3|].
    by destruct H5 as (_ & _ & _ & _ & ?).
Defined.

(** X22: over an indexed system [evaluate_retrieval] leaves the system
    indexed and appends two records per test query to the history: first
    one per query, in order, with method ['tfidf'], then one per query with
    method ['bm25']; each holds its query text, the language of the test
    query (['en'] when it gives none) and at most 10 results. *)
Theorem evaluate_retrieval_history (clock_at : string → nat → EvalClock)
  (docs : list Document) (sys : CLIRSystem) (test_queries : list TestQuery) :
  Indexed docs sys →
  ∃ evaluation sys' recs_tfidf recs_bm25,
    evaluate_retrieval clock_at sys test_queries = Ok (evaluation, sys')
    ∧ Indexed docs sys'
    ∧ search_history sys' = search_history sys ++ recs_tfidf ++ recs_bm25
    ∧ Forall2 (eval_record_ok "tfidf") (enumerate test_queries) recs_tfidf
    ∧ Forall2 (eval_record_ok "bm25") (enumerate test_queries) recs_bm25
    ∧ length (search_history sys')
      = (length (search_history sys) + 2 * length test_queries)%nat.
Proof.
  intros Hsys. unfold evaluate_retrieval. cbn [foldM].
  destruct (evaluate_method_indexed clock_at docs test_queries ∅ sys "tfidf"
              Hsys) as (st1 & recs1 & sys1 & Hm1 & Hsys1 & Hh1 & _ & Hr1).
  rewrite Hm1, bind_Ok.
  destruct (evaluate_method_indexed clock_at docs test_queries
              (<["tfidf" := st1]> ∅) sys1 "bm25" Hsys1)
    as (st2 & recs2 & sys2 & Hm2 & Hsys2 & Hh2 & _ & Hr2).
  rewrite Hm2, bind_Ok.
  eexists _, sys2, recs1, recs2. split; [reflexivity|].
  assert (Hlen : ∀ (l : list TestQuery), length (enumerate l) = length l).
  { intros l. unfold enumerate. generalize 0%nat.
    induction l as [|x l IH]; intros n; simpl; [done|]. by rewrite IH. }
  split_and!; try done.
  - by rewrite Hh2, Hh1, <- app_assoc.
  - rewrite Hh2, Hh1, !length_app.
    rewrite <- (Forall2_length _ _ _ Hr1), <- (Forall2_length _ _ _ Hr2), Hlen.
    lia.
Qed.

Lemma evaluate_retrieval_history_witness :
  ∃ evaluation sys',
    evaluate_retrieval (fun _ _ => mkEvalClock 0 example_clock 1)
      (index_batch (new_system None) scenario_corpus)
      [mkTestQuery "cat" None; mkTestQuery "dog mouse" (Some "en")]
    = Ok (evaluation, sys')
    ∧ length (search_history sys') = 4%nat.
Proof.
  destruct (evaluate_retrieval_history
              (fun _ _ => mkEvalClock 0 example_clock 1) scenario_corpus
              (index_batch (new_system None) scenario_corpus)
              [mkTestQuery "cat" None; mkTestQuery "dog mouse" (Some "en")])
    as (ev & sys' & r1 & r2 & H1 & _ & _ & _ & _ & H6).
  - repeat split; reflexivity.
  - exists ev, sys'. split; [exact H1|exact H6].
Defined.

(** ** The scraper: links, batches and named entities *)

Section Scraper.

Implicit Types (links hrefs : list string) (href base_url : string).

Lemma contains_append (needle a b : string) :
  contains needle b = true → contains needle (a +:+ b) = true.
Proof.
  intros Hb. induction a as [|c a IH]; simpl; [done|].
  rewrite IH. apply orb_true_r.
Qed.

Lemma article_link_absolute base_url href :
  is_article_link href = true →
  is_article_link (absolute_link base_url href) = true.
Proof.
  unfold is_article_link, absolute_link.
  destruct (String.prefix "/" href); [|done].
  intros [H|H]%orb_true_iff; apply orb_true_iff;
    [left|right]; by apply contains_append.
Qed.

Lemma link_step_unfold base_url links href :
  link_step base_url links href
  = if is_article_link href
    then if bool_decide (absolute_link base_url href ∈ links) then links
         else links ++ [absolute_link base_url href]
    else links.
Proof. reflexivity. Qed.

(** What the loop of [scrape_homepage_links] keeps. *)
Lemma link_loop base_url (seen : list string) hrefs : ∀ links,
  NoDup links →
  (∀ l, l ∈ links → ∃ href, href ∈ seen ∧ is_article_link href = true
                            ∧ l = absolute_link base_url href) →
  (∀ href, href ∈ seen → is_article_link href = true →
           absolute_link base_url href ∈ links) →
  let out := fold_left (link_step base_url) hrefs links in
  NoDup out
  ∧ (∀ l, l ∈ out → ∃ href, href ∈ seen ++ hrefs
                            ∧ is_article_link href = true
                            ∧ l = absolute_link base_url href)
  ∧ (∀ href, href ∈ seen ++ hrefs → is_article_link href = true →
             absolute_link base_url href ∈ out).
Proof.
  revert seen. induction hrefs as [|href hrefs IH]; intros seen links Hnd Hfrom Hall.
  - simpl. rewrite app_nil_r. done.
  - cbn [fold_left]. cbv zeta.
    replace (seen ++ href :: hrefs) with ((seen ++ [href]) ++ hrefs)
      by (by rewrite <- app_assoc).
    apply IH; rewrite link_step_unfold.
    + destruct (is_article_link href); [|done].
      case_bool_decide as Hin; [done|].
      apply NoDup_app. split_and!; [done| |apply NoDup_singleton].
      intros x Hx ->%list_elem_of_singleton. done.
    + intros l Hl. destruct (is_article_link href) eqn:Hart.
      * case_bool_decide as Hin.
        -- destruct (Hfrom l Hl) as (h & ? & ? & ?). exists h.
           split_and!; try done. apply elem_of_app. by left.
        -- apply elem_of_app in Hl as [Hl|Hl].
           ++ destruct (Hfrom l Hl) as (h & ? & ? & ?). exists h.
              split_and!; try done. apply elem_of_app. by left.
           ++ apply list_elem_of_singleton in Hl. subst l. exists href.
              split_and!; try done. apply elem_of_app. right.
              apply list_elem_of_here.
      * destruct (Hfrom l Hl) as (h & ? & ? & ?). exists h.
        split_and!; try done. apply elem_of_app. by left.
    + intros h Hh Hart.
      apply elem_of_app in Hh as [Hh|Hh].
      * pose proof (Hall h Hh Hart) as Hin.
        destruct (is_article_link href); [|done].
        case_bool_decide; [done|]. apply elem_of_app. by left.
      * apply list_elem_of_singleton in Hh. subst h. rewrite Hart.
        case_bool_decide; [done|]. apply elem_of_app. right.
        apply list_elem_of_here.
Qed.

Lemma link_loop_length base_url hrefs : ∀ links,
  length (fold_left (link_step base_url) hrefs links)
  ≤ length links + length hrefs.
Proof.
  induction hrefs as [|href hrefs IH]; intros links; cbn [fold_left].
  - simpl. lia.
  - etransitivity; [apply IH|]. rewrite link_step_unfold.
    destruct (is_article_link href); [|simpl; lia].
    case_bool_decide; [simpl; lia|]. rewrite length_app. simpl. lia.
Qed.

Lemma slice_to_sublist {A : Type} (l : list A) (k : Z) :
  slice_to l k `sublist_of` l.
Proof. unfold slice_to. destruct (0 <=? k)%Z; apply sublist_take. Qed.

Lemma slice_to_length_le {A : Type} (l : list A) (k : Z) :
  length (slice_to l k) ≤ length l.
Proof. apply sublist_length, slice_to_sublist. Qed.

Lemma omap_length_le {A B : Type} (f : A → option B) (l : list A) :
  length (omap f l) ≤ length l.
Proof.
  induction l as [|x l IH]; csimpl; [done|]. destruct (f x); simpl; lia.
Qed.

Lemma homepage_links_length base_url (page : option (list string)) :
  length (scrape_homepage_links base_url page) ≤ 50.
Proof.
  unfold scrape_homepage_links. destruct page as [hrefs|]; simpl; [|lia].
  unfold slice_to. simpl. rewrite length_take. lia.
Qed.

Lemma enumerate_from_elem_of {A : Type} (l : list A) : ∀ n i (x : A),
  (i, x) ∈ enumerate_from n l ↔ ∃ j, i = n + j ∧ l !! j = Some x.
Proof.
  induction l as [|y l IH]; intros n i x; simpl.
  - split; [intros Hin; by apply not_elem_of_nil in Hin|].
    by intros (j & _ & ?).
  - rewrite elem_of_cons, IH. split.
    + intros [Heq|(j & -> & Hj)].
      * injection Heq as -> ->. exists 0. split; [lia|done].
      * exists (S j). split; [lia|done].
    + intros ([|j] & -> & Hj).
      * left. simpl in Hj. injection Hj as ->. f_equal. lia.
      * right. exists j. split; [lia|done].
Qed.

End Scraper.

(** X23: [scrape_homepage_links] returns at most 50 links without
    duplicates; every link is an [href] of the page that contains ['/news/']
    or ['/article/'], prefixed with the base url when it starts with ['/'],
    and still contains that marker; when the page has at most 50 anchors no
    such [href] is lost; a failed request gives the empty list. *)
Theorem homepage_links_selected (base_url : string)
  (page : option (list string)) :
  let links := scrape_homepage_links base_url page in
  NoDup links
  ∧ length links ≤ 50
  ∧ Forall (fun l => is_article_link l = true) links
  ∧ (∀ l, l ∈ links →
          ∃ hrefs href, page = Some hrefs ∧ href ∈ hrefs
                        ∧ is_article_link href = true
                        ∧ l = absolute_link base_url href)
  ∧ (∀ hrefs href, page = Some hrefs → length hrefs ≤ 50 → href ∈ hrefs →
                   is_article_link href = true →
                   absolute_link base_url href ∈ links)
  ∧ (page = None → links = []).
Proof.
  cbv zeta. destruct page as [hrefs|]; simpl.
  - destruct (link_loop base_url [] hrefs [] (@NoDup_nil_2 string))
      as (Hnd & Hfrom & Hall).
    { intros l Hl. by apply not_elem_of_nil in Hl. }
    { intros h Hh. by apply not_elem_of_nil in Hh. }
    simpl in Hfrom, Hall.
    set (out := fold_left (link_step base_url) hrefs []) in *.
    pose proof (slice_to_sublist out 50) as Hsub.
    assert (Hin : ∀ l, l ∈ slice_to out 50 → l ∈ out).
    { intros l Hl. by eapply elem_of_sublist. }
    split_and!.
    + by eapply sublist_NoDup.
    + unfold slice_to. simpl. rewrite length_take. lia.
    + apply Forall_forall. intros l Hl.
      destruct (Hfrom l (Hin l Hl)) as (h & _ & Hart & ->).
      by apply article_link_absolute.
    + intros l Hl. destruct (Hfrom l (Hin l Hl)) as (h & ? & ? & ?).
      by exists hrefs, h.
    + intros hrefs' h Heq Hlen Hh Hart. injection Heq as <-.
      pose proof (link_loop_length base_url hrefs []) as Hout.
      fold out in Hout. simpl in Hout.
      unfold slice_to. simpl. rewrite take_ge by lia. by apply Hall.
    + done.
  - split_and!; try done; try constructor; try (simpl; lia).
    intros l Hl. by apply not_elem_of_nil in Hl.
Qed.

Lemma homepage_links_selected_witness :
  scrape_homepage_links "https://www.thedailystar.net" None = [].
Proof.
  by apply (proj2 (proj2 (proj2 (proj2 (proj2
              (homepage_links_selected "https://www.thedailystar.net" None)))))).
Defined.

(** X24: whatever the scraper finds, [scrape_and_index] leaves an indexed
    system with between 1 and 50 documents: the documents scraped from at
    most 50 selected links, or the five sample documents when none was
    scraped. *)
Theorem scraped_batch_size (tr : option Translator) (base_url : string)
  (page : option (list string)) (scrape_article : string → option Document)
  (max_pages : Z) :
  let scraped := scrape_multiple base_url page scrape_article max_pages in
  let sys := scrape_and_index (new_system tr) scraped in
  Indexed (documents sys) sys
  ∧ total_docs (sys_index sys) = length (documents sys)
  ∧ 1 ≤ total_docs (sys_index sys) ≤ 50
  ∧ (scraped = [] → documents sys = generate_sample_data)
  ∧ (scraped ≠ [] → documents sys = scraped).
Proof.
  cbv zeta.
  set (scraped := scrape_multiple _ _ _ _).
  assert (Hlen : length scraped ≤ 50).
  { unfold scraped, scrape_multiple.
    etransitivity; [apply omap_length_le|].
    etransitivity; [apply slice_to_length_le|]. apply homepage_links_length. }
  pose proof (scrape_and_index_Indexed tr scraped) as Hsys.
  assert (Hdocs : documents (scrape_and_index (new_system tr) scraped)
                  = match scraped with [] => generate_sample_data | _ => scraped end).
  { by destruct Hsys as (? & _). }
  rewrite Hdocs.
  assert (Hnum : total_docs (sys_index (scrape_and_index (new_system tr) scraped))
                 = length (match scraped with
                           | [] => generate_sample_data | _ => scraped end)).
  { destruct Hsys as (_ & -> & _).
    by destruct (build_index_fields
                   (match scraped with
                    | [] => generate_sample_data | _ => scraped end))
      as (_ & _ & _ & ? & _). }
  rewrite Hnum. clear Hdocs Hnum.
  split; [exact Hsys|]. clear Hsys.
  split; [reflexivity|].
  destruct scraped as [|d rest].
  - change (length generate_sample_data) with 5.
    split; [lia|]. split; [reflexivity|]. intros H. by destruct H.
  - split; [simpl length in *; lia|].
    split; [discriminate|reflexivity].
Qed.

Lemma scraped_batch_size_witness :
  documents
    (scrape_and_index (new_system None)
       (scrape_multiple "https://www.thedailystar.net" None
          (fun _ => None) 50))
  = generate_sample_data.
Proof.
  apply (proj1 (proj2 (proj2 (proj2
           (scraped_batch_size None "https://www.thedailystar.net" None
              (fun _ => None) 50))))).
  reflexivity.
Defined.

(** X25: [extract_named_entities] returns at most 10 distinct words of the
    text, each starting with an upper-case letter and longer than one
    character; a word qualifies at every position after the first, and at
    the first position only when the last word of the text does not end with
    ['.'], ['!'] or ['?']; with fewer than 10 results every qualifying word
    is returned. *)
Theorem named_entities_selected (text : string) (res : list string) :
  extract_named_entities text res →
  NoDup res
  ∧ length res ≤ 10
  ∧ Forall (fun w => w ∈ split text ∧ capitalised w = true) res
  ∧ (∀ w, w ∈ entity_candidates text
          ↔ ∃ i, split text !! i = Some w ∧ capitalised w = true
                 ∧ (0 < i
                    ∨ from_option ends_sentence false (last (split text))
                      = false))
  ∧ (length res < 10 → ∀ w, w ∈ entity_candidates text → w ∈ res).
Proof.
  intros (uniq & Hnd & Huniq & ->).
  assert (Hcand : ∀ w, w ∈ entity_candidates text
                       ↔ ∃ i, split text !! i = Some w ∧ capitalised w = true
                              ∧ (0 < i
                                 ∨ from_option ends_sentence false
                                     (last (split text)) = false)).
  { intros w. unfold entity_candidates. cbv zeta.
    rewrite list_elem_of_omap. split.
    - intros ([i w'] & Hin & Hsel).
      apply enumerate_from_elem_of in Hin as (j & -> & Hj). simpl in Hsel.
      destruct (capitalised w') eqn:Hcap; [|done]. simpl in Hsel.
      destruct (_ || _) eqn:Hpos; [|done]. injection Hsel as <-.
      exists j. split_and!; try done.
      destruct j as [|j]; [|left; lia]. right. simpl in Hpos.
      by apply negb_true_iff in Hpos.
    - intros (i & Hi & Hcap & Hpos). exists (i, w). split.
      + apply enumerate_from_elem_of. exists i. done.
      + simpl. rewrite Hcap. simpl.
        destruct Hpos as [Hpos|Hlast].
        * by rewrite (proj2 (Nat.ltb_lt _ _) Hpos).
        * rewrite Hlast. simpl. destruct i; simpl; done. }
  pose proof (slice_to_sublist uniq 10) as Hsub.
  split_and!.
  - by eapply sublist_NoDup.
  - unfold slice_to. simpl. rewrite length_take. lia.
  - apply Forall_forall. intros w Hw.
    assert (Hin : w ∈ uniq) by (by eapply elem_of_sublist).
    apply Huniq, Hcand in Hin as (i & Hi & Hcap & _).
    split; [|done]. by eapply list_elem_of_lookup_2.
  - exact Hcand.
  - intros Hlen w Hw. apply Huniq in Hw.
    unfold slice_to in *. simpl in *. rewrite length_take in Hlen.
    rewrite take_ge by lia. done.
Qed.

Lemma named_entities_selected_witness :
  NoDup ["Dhaka"] ∧ length ["Dhaka"] ≤ 10.
Proof.
  destruct (named_entities_selected "Dhaka is big" ["Dhaka"])
    as (H1 & H2 & _).
  - exists ["Dhaka"]. split; [apply NoDup_singleton|]. split; [|reflexivity].
    intros w. vm_compute. done.
  - split; [exact H1|exact H2].
Defined.
